(** * Sandboxed code execution of cloudflare-mcp: cache keys, the
      worker LRU cache, the sandbox definition and the execution bridge.

    The development follows the executor module that caches workers
    (simpleHash, WorkerCache, createCodeExecutor, createSearchExecutor).
    JavaScript strings are sequences of UTF-16 code units; numbers that
    the code only ever uses as integers are integers of Z, with the
    32-bit wrap-around of the bit operators written out. *)

From Stdlib Require Import ZArith List Bool Ascii String Lia.
Import ListNotations.

Local Open Scope Z_scope.

(** ** JavaScript strings *)

Module JS.

(** A string is its list of UTF-16 code units, as [charCodeAt] reads it. *)
Definition jsstring : Type := list Z.

Definition code_unit (c : Z) : Prop := 0 <= c < 65536.

Definition jsstring_eq_dec : forall a b : jsstring, {a = b} + {a <> b} :=
  list_eq_dec Z.eq_dec.

(** A literal of the source text, one code unit per character. *)
Definition lit (s : string) : jsstring :=
  map (fun a => Z.of_N (N_of_ascii a)) (list_ascii_of_string s).

(** [ToInt32]: the value modulo 2^32, read as a signed 32-bit integer. *)
Definition toInt32 (z : Z) : Z := (z + 2 ^ 31) mod 2 ^ 32 - 2 ^ 31.

Definition int32 (z : Z) : Prop := - 2 ^ 31 <= z < 2 ^ 31.

(** [a << n] on numbers. *)
Definition shl (a n : Z) : Z := toInt32 (Z.shiftl (toInt32 a) (n mod 32)).

(** [a & b] on numbers. *)
Definition band (a b : Z) : Z := toInt32 (Z.land (toInt32 a) (toInt32 b)).

(** One digit of [Number.prototype.toString(radix)]: 0-9, then a-z. *)
Definition digit (d : Z) : Z :=
  if d <? 10 then 48 + d else 97 + (d - 10).

(** The digits of a non-negative integer, most significant first;
    [fuel] bounds the number of digits produced. *)
Fixpoint digits (radix : Z) (fuel : nat) (n : Z) (acc : jsstring) : jsstring :=
  match fuel with
  | O => acc
  | S fuel' =>
      let acc' := digit (n mod radix) :: acc in
      if n / radix =? 0 then acc' else digits radix fuel' (n / radix) acc'
  end.

Definition digits_fuel (n : Z) : nat := S (Z.to_nat (Z.log2 n)).

(** [n.toString(radix)] for an integer [n] and a radix from 2 to 36. *)
Definition toStringRadix (radix n : Z) : jsstring :=
  if n <? 0 then 45 :: digits radix (digits_fuel (- n)) (- n) []
  else digits radix (digits_fuel n) n [].

Definition toString36 (n : Z) : jsstring := toStringRadix 36 n.

(** The number that a string of digits writes, as [parseInt] reads it. *)
Definition digit_value (c : Z) : Z :=
  if c <? 58 then c - 48 else c - 87.

Definition parse_digits (radix : Z) (s : jsstring) : Z :=
  fold_left (fun acc c => acc * radix + digit_value c) s 0.

(** [String(n)] for an integer [n]. *)
Definition decimal (n : Z) : jsstring := toStringRadix 10 n.

(** [s.includes(t)]. *)
Fixpoint startsWith (s t : jsstring) : bool :=
  match t, s with
  | [], _ => true
  | _ :: _, [] => false
  | b :: t', a :: s' => (a =? b) && startsWith s' t'
  end.

Fixpoint includes (s t : jsstring) : bool :=
  startsWith s t ||
  match s with
  | [] => false
  | _ :: s' => includes s' t
  end.

(** [parts.join(sep)] on strings. *)
Fixpoint join (sep : jsstring) (parts : list jsstring) : jsstring :=
  match parts with
  | [] => []
  | [p] => p
  | p :: rest => p ++ sep ++ join sep rest
  end.

(** The double quote and the line feed, for the literals below. *)
Definition dq : string := String (ascii_of_nat 34) EmptyString.
Definition nl : string := String (ascii_of_nat 10) EmptyString.

End JS.

Import JS.

(** ** Cache key derivation *)

Module Hash.

(** The body of the [for] loop of [simpleHash]:
    [hash = ((hash << 5) - hash) + char; hash = hash & hash]. *)
Definition hash_step (hash char : Z) : Z :=
  let hash1 := (shl hash 5 - hash) + char in
  band hash1 hash1.

(** The loop of [simpleHash], from index 0 to [str.length - 1]. *)
Definition hash_loop (str : jsstring) (hash : Z) : Z :=
  fold_left hash_step str hash.

Definition hash_code (str : jsstring) : Z := hash_loop str 0.

Definition simpleHash (str : jsstring) : jsstring :=
  toString36 (hash_code str).

(** [`${accountId}:${codeHash}`] of [createCodeExecutor]. *)
Definition cacheKey (accountId code : jsstring) : jsstring :=
  accountId ++ lit ":" ++ simpleHash code.

End Hash.

Import Hash.

(** ** The insertion-ordered [Map<string, T>] *)

Module JSMap.

Section Ops.
Context {V : Type}.

(** Entries in insertion order, oldest first; [T] has no [undefined]. *)
Definition t : Type := list (jsstring * V).

Definition empty : t := [].

Definition size (m : t) : Z := Z.of_nat (List.length m).

Definition keys (m : t) : list jsstring := map fst m.

Fixpoint get (key : jsstring) (m : t) : option V :=
  match m with
  | [] => None
  | (k, v) :: rest => if jsstring_eq_dec key k then Some v else get key rest
  end.

Definition has (key : jsstring) (m : t) : bool :=
  match get key m with Some _ => true | None => false end.

(** [delete] removes the entry of the key, if there is one. *)
Fixpoint delete (key : jsstring) (m : t) : t :=
  match m with
  | [] => []
  | (k, v) :: rest =>
      if jsstring_eq_dec key k then rest else (k, v) :: delete key rest
  end.

(** [set] overwrites the value of a present key where it stands, and
    appends a new key after all others. *)
Fixpoint set (key : jsstring) (value : V) (m : t) : t :=
  match m with
  | [] => [(key, value)]
  | (k, v) :: rest =>
      if jsstring_eq_dec key k then (key, value) :: rest
      else (k, v) :: set key value rest
  end.

(** [keys().next().value]: the oldest key, [undefined] on an empty map. *)
Definition first_key (m : t) : option jsstring :=
  match m with
  | [] => None
  | (k, _) :: _ => Some k
  end.

End Ops.

Arguments t : clear implicits.

End JSMap.

(** ** The LRU cache of workers *)

Module WorkerCache.

Section Cache.
Context {V : Type}.

Record t : Type := mk { cache : JSMap.t V; maxSize : Z }.

(** [new WorkerCache(maxSize)]. *)
Definition new (maxSize : Z) : t := {| cache := JSMap.empty; maxSize := maxSize |}.

Definition with_cache (c : t) (m : JSMap.t V) : t :=
  {| cache := m; maxSize := maxSize c |}.

(** [get(key)]: the value, and the cache with the entry moved to the end
    on a hit. *)
Definition get (key : jsstring) (c : t) : option V * t :=
  match JSMap.get key (cache c) with
  | Some value =>
      (Some value,
       with_cache c (JSMap.set key value (JSMap.delete key (cache c))))
  | None => (None, c)
  end.

(** One round of the eviction loop's body. *)
Definition evict_oldest (m : JSMap.t V) : JSMap.t V :=
  match JSMap.first_key m with
  | Some oldestKey => JSMap.delete oldestKey m
  | None => m
  end.

(** [while (this.cache.size >= this.maxSize) { ... }]; [None] when the
    loop is still running after [fuel] rounds. *)
Fixpoint evict (fuel : nat) (maxSize : Z) (m : JSMap.t V) : option (JSMap.t V) :=
  if JSMap.size m >=? maxSize then
    match fuel with
    | O => None
    | S fuel' => evict fuel' maxSize (evict_oldest m)
    end
  else Some m.

(** The map after the first statement of [set]. *)
Definition unlink (key : jsstring) (m : JSMap.t V) : JSMap.t V :=
  if JSMap.has key m then JSMap.delete key m else m.

(** [set(key, value)], the loop run for at most [fuel] rounds. *)
Definition set (fuel : nat) (key : jsstring) (value : V) (c : t) : option t :=
  match evict fuel (maxSize c) (unlink key (cache c)) with
  | Some m => Some (with_cache c (JSMap.set key value m))
  | None => None
  end.

(** Rounds that suffice whenever the loop ends at all. *)
Definition enough (c : t) : nat := S (List.length (cache c)).

(** The successive contents of [this.cache] during a call. *)
Definition get_states (key : jsstring) (c : t) : list (JSMap.t V) :=
  match JSMap.get key (cache c) with
  | Some value =>
      [JSMap.delete key (cache c);
       JSMap.set key value (JSMap.delete key (cache c))]
  | None => []
  end.

Fixpoint evict_states (fuel : nat) (maxSize : Z) (m : JSMap.t V) : list (JSMap.t V) :=
  if JSMap.size m >=? maxSize then
    match fuel with
    | O => []
    | S fuel' => evict_oldest m :: evict_states fuel' maxSize (evict_oldest m)
    end
  else [].

Definition set_states (fuel : nat) (key : jsstring) (value : V) (c : t)
  : list (JSMap.t V) :=
  let m1 := unlink key (cache c) in
  m1 :: evict_states fuel (maxSize c) m1 ++
  match evict fuel (maxSize c) m1 with
  | Some m2 => [JSMap.set key value m2]
  | None => []
  end.

(** The operations of a client, and runs of them. *)
Inductive op : Type :=
| OpGet (key : jsstring)
| OpSet (key : jsstring) (value : V).

(** [step c o c' log']: operation [o] takes the cache from [c] to [c'];
    [log'] lists the keys the operation has used (a hit of [get], or a
    [set]). *)
Inductive step : t -> op -> t -> list jsstring -> Prop :=
| step_get_hit key c value :
    JSMap.get key (cache c) = Some value ->
    step c (OpGet key) (snd (get key c)) [key]
| step_get_miss key c :
    JSMap.get key (cache c) = None ->
    step c (OpGet key) (snd (get key c)) []
| step_set fuel key value c c' :
    set fuel key value c = Some c' ->
    step c (OpSet key value) c' [key].

(** [run m ops c log]: from [new WorkerCache(m)], the operations [ops]
    (latest first) lead to [c]; [log] lists the keys used, latest first. *)
Inductive run (m : Z) : list op -> t -> list jsstring -> Prop :=
| run_new : run m [] (new m) []
| run_step ops c log o c' used :
    run m ops c log ->
    step c o c' used ->
    run m (o :: ops) c' (used ++ log).

(** Every content of the map that a run goes through, the contents in
    the middle of a call and of a call that never returns included. *)
Inductive visits (m : Z) : JSMap.t V -> Prop :=
| visits_rest ops c log : run m ops c log -> visits m (cache c)
| visits_get ops c log key s :
    run m ops c log -> In s (get_states key c) -> visits m s
| visits_set ops c log fuel key value s :
    run m ops c log -> In s (set_states fuel key value c) -> visits m s.

(** The cache and the log that the operations [ops] (latest first) lead
    to from [new WorkerCache(m)], every [set] given the rounds that
    suffice; [None] when a [set] does not return. *)
Fixpoint exec (m : Z) (ops : list op) : option (t * list jsstring) :=
  match ops with
  | [] => Some (new m, [])
  | o :: earlier =>
      match exec m earlier with
      | None => None
      | Some (c, log) =>
          match o with
          | OpGet key =>
              Some (snd (get key c),
                    if JSMap.has key (cache c) then key :: log else log)
          | OpSet key value =>
              match set (enough c) key value c with
              | Some c' => Some (c', key :: log)
              | None => None
              end
          end
      end
  end.

(** The keys of a log in the order of their last use, latest first. *)
Fixpoint recency (log : list jsstring) : list jsstring :=
  match log with
  | [] => []
  | k :: older => k :: remove jsstring_eq_dec k (recency older)
  end.

(** [k] is the least recently used of [live] for the log: all other live
    keys were used after the last use of [k]. *)
Definition least_recent (log live : list jsstring) (k : jsstring) : Prop :=
  In k live /\
  exists later earlier,
    log = later ++ k :: earlier /\
    ~ In k later /\
    forall k', In k' live -> k' <> k -> In k' later.

End Cache.

Arguments t : clear implicits.
Arguments op : clear implicits.

End WorkerCache.

(** ** JavaScript values, completions and the engine *)

Module Value.

(** Values as the bridge sees them. A number is an integer here, of a
    size that prints in plain decimal: the status and the error codes
    that the code prints are such. *)
#[local] Unset Elimination Schemes.
Inductive jsval : Type :=
| JUndefined
| JNull
| JBool (b : bool)
| JNum (z : Z)
| JStr (s : jsstring)
| JArr (items : list jsval)
| JObj (fields : list (jsstring * jsval)).
#[local] Set Elimination Schemes.

(** How a call ends: with a value, or with a thrown value. *)
Inductive completion (A : Type) : Type :=
| Return (a : A)
| Throw (e : jsval).

Arguments Return {A} a.
Arguments Throw {A} e.

Definition bind {A B : Type} (c : completion A) (k : A -> completion B)
  : completion B :=
  match c with
  | Return a => k a
  | Throw e => Throw e
  end.

(** What the engine decides: the [TypeError] it raises for a property
    read on [undefined] or [null] or for a call of a non-function, and
    the [stack] it records in [new Error(message)]. *)
Record Engine : Type := {
  TypeError : jsval -> jsstring -> jsval;
  stack_of : jsstring -> jsval
}.

(** [if (v)]. *)
Definition truthy (v : jsval) : bool :=
  match v with
  | JUndefined | JNull => false
  | JBool b => b
  | JNum z => negb (z =? 0)
  | JStr s => match s with [] => false | _ :: _ => true end
  | JArr _ | JObj _ => true
  end.

(** The string that [+] with a string operand and [new Error(v)] make of
    a value: [String(v)], for values without a [toString] of their own. *)
Fixpoint to_str (v : jsval) : jsstring :=
  match v with
  | JUndefined => lit "undefined"
  | JNull => lit "null"
  | JBool true => lit "true"
  | JBool false => lit "false"
  | JNum z => decimal z
  | JStr s => s
  | JArr items =>
      join (lit ",")
        (map (fun x => match x with
                       | JUndefined | JNull => []
                       | _ => to_str x
                       end) items)
  | JObj _ => lit "[object Object]"
  end.

Fixpoint field (name : jsstring) (fields : list (jsstring * jsval)) : jsval :=
  match fields with
  | [] => JUndefined
  | (k, v) :: rest => if jsstring_eq_dec name k then v else field name rest
  end.

Section WithEngine.
Variable engine : Engine.

(** [v.name] for the names the code reads ([message], [stack],
    [success], [errors], [code]), which only an object can have. *)
Definition get_prop (v : jsval) (name : jsstring) : completion jsval :=
  match v with
  | JUndefined | JNull => Throw (TypeError engine v name)
  | JObj fields => Return (field name fields)
  | _ => Return JUndefined
  end.

(** [new Error(message)]. *)
Definition new_Error (message : jsstring) : jsval :=
  JObj [(lit "message", JStr message); (lit "stack", stack_of engine message)].

End WithEngine.

End Value.

Import Value.

(** ** The execution bridge, inside the sandbox *)

Module Bridge.

(** What [evaluate] returns; a key that is not written reads as
    [undefined]. *)
Record Response : Type := {
  result : jsval;
  err : jsval;
  stack : jsval
}.

(** What [cloudflare.request] reads of the response of [fetch]: the
    [content-type] header ([null] when there is none), the status, the
    body as text and what [response.json()] makes of the body. *)
Record FetchResponse : Type := {
  content_type : option jsstring;
  status : Z;
  text : jsstring;
  json : completion jsval
}.

(** [response.ok]: the status is in the range 200-299. *)
Definition ok (response : FetchResponse) : bool :=
  (200 <=? status response) && (status response <=? 299).

(** The [content-type] header, or the empty string when it is missing. *)
Definition responseContentType (response : FetchResponse) : jsstring :=
  match content_type response with
  | Some (c :: s) => c :: s
  | _ => []
  end.

(** [responseContentType.includes("application/json")]. *)
Definition is_json (response : FetchResponse) : bool :=
  includes (responseContentType response) (lit "application/json").

Section WithEngine.
Variable engine : Engine.

(** [data.errors.map(e => e.code + ": " + e.message)] on the items of an
    array. *)
Fixpoint map_errors (items : list jsval) : completion (list jsstring) :=
  match items with
  | [] => Return []
  | e :: rest =>
      bind (get_prop engine e (lit "code")) (fun code =>
      bind (get_prop engine e (lit "message")) (fun message =>
      bind (map_errors rest) (fun strs =>
      Return ((to_str code ++ lit ": " ++ to_str message) :: strs))))
  end.

(** [cloudflare.request], from the response of [fetch] on. *)
Definition request_response (response : FetchResponse) : completion jsval :=
  if negb (is_json response) then
    if negb (ok response) then
      Throw (new_Error engine
               (lit "Cloudflare API error: " ++ decimal (status response)
                ++ lit " " ++ text response))
    else
      Return (JObj [(lit "success", JBool true);
                    (lit "result", JStr (text response))])
  else
    bind (json response) (fun data =>
    bind (get_prop engine data (lit "success")) (fun success =>
    if negb (truthy success) then
      bind (get_prop engine data (lit "errors")) (fun errors =>
      match errors with
      | JArr items =>
          bind (map_errors items) (fun strs =>
          Throw (new_Error engine
                   (lit "Cloudflare API error: " ++ join (lit ", ") strs)))
      | _ => Throw (TypeError engine errors (lit "map"))
      end)
    else Return data)).

(** The [try]/[catch] of [evaluate], around the outcome of
    [await (code)()]. *)
Definition evaluate (user : completion jsval) : completion Response :=
  match user with
  | Return value =>
      Return {| result := value; err := JUndefined; stack := JUndefined |}
  | Throw e =>
      bind (get_prop engine e (lit "message")) (fun message =>
      bind (get_prop engine e (lit "stack")) (fun trace =>
      Return {| result := JUndefined; err := message; stack := trace |}))
  end.

End WithEngine.

(** An item of [errors] that reports the code [c] and the message [m]. *)
Definition reports (e : jsval) (report : Z * jsstring) : Prop :=
  exists fields,
    e = JObj fields /\
    field (lit "code") fields = JNum (fst report) /\
    field (lit "message") fields = JStr (snd report).

(** A reported error, written as the message has it. *)
Definition report_text (report : Z * jsstring) : jsstring :=
  decimal (fst report) ++ lit ": " ++ snd report.

(** The two forms of an outcome. *)
Definition present (v : jsval) : Prop := v <> JUndefined.

Definition value_form (r : Response) : Prop :=
  present (result r) /\ err r = JUndefined.

Definition error_form (r : Response) : Prop :=
  result r = JUndefined /\
  exists c message, err r = JStr (c :: message).

End Bridge.

Import Bridge.

(** ** The sandbox definition *)

Module SandboxDef.

(** The four digits of a [\u] escape. *)
Definition hex4 (c : Z) : jsstring :=
  [digit (c / 4096 mod 16); digit (c / 256 mod 16);
   digit (c / 16 mod 16); digit (c mod 16)].

Definition unicode_escape (c : Z) : jsstring := lit "\u" ++ hex4 c.

Definition is_lead (c : Z) : bool := (55296 <=? c) && (c <=? 56319).
Definition is_trail (c : Z) : bool := (56320 <=? c) && (c <=? 57343).

(** The inside of the quotes of [JSON.stringify] on a string. *)
Fixpoint quote_units (s : jsstring) : jsstring :=
  match s with
  | [] => []
  | c :: rest =>
      if c =? 8 then lit "\b" ++ quote_units rest
      else if c =? 9 then lit "\t" ++ quote_units rest
      else if c =? 10 then lit "\n" ++ quote_units rest
      else if c =? 12 then lit "\f" ++ quote_units rest
      else if c =? 13 then lit "\r" ++ quote_units rest
      else if c =? 34 then lit "\" ++ [34] ++ quote_units rest
      else if c =? 92 then lit "\\" ++ quote_units rest
      else if c <? 32 then unicode_escape c ++ quote_units rest
      else if is_lead c then
        match rest with
        | d :: rest' =>
            if is_trail d then c :: d :: quote_units rest'
            else unicode_escape c ++ quote_units rest
        | [] => unicode_escape c
        end
      else if is_trail c then unicode_escape c ++ quote_units rest
      else c :: quote_units rest
  end.

(** [JSON.stringify(s)] for a string [s]. *)
Definition JSON_stringify (s : jsstring) : jsstring :=
  34 :: quote_units s ++ [34].

Local Open Scope string_scope.

(** [worker.js] of [createCodeExecutor], up to the API base. *)
Definition code_tpl_1 : string :=
  String.concat nl
    [EmptyString;
     ("import { WorkerEntrypoint } from " ++ dq ++ "cloudflare:workers" ++ dq ++ ";");
     EmptyString;
     "const apiBase = "].

(** Between the API base and the account identifier. *)
Definition code_tpl_2 : string :=
  String.concat nl
    [";";
     "const accountId = "].

(** The class, [cloudflare.request] and the call of the code. *)
Definition code_tpl_3 : string :=
  String.concat nl
    [";";
     EmptyString;
     "export default class CodeExecutor extends WorkerEntrypoint {";
     "  async evaluate(apiToken) {";
     "    const cloudflare = {";
     "      async request(options) {";
     "        const { method, path, query, body, contentType, rawBody } = options;";
     EmptyString;
     "        const url = new URL(apiBase + path);";
     "        if (query) {";
     "          for (const [key, value] of Object.entries(query)) {";
     "            if (value !== undefined) {";
     "              url.searchParams.set(key, String(value));";
     "            }";
     "          }";
     "        }";
     EmptyString;
     "        const headers = {";
     ("          " ++ dq ++ "Authorization" ++ dq ++ ": " ++ dq ++ "Bearer " ++ dq ++ " + apiToken,");
     "        };";
     EmptyString;
     "        if (contentType) {";
     ("          headers[" ++ dq ++ "Content-Type" ++ dq ++ "] = contentType;");
     "        } else if (body && !rawBody) {";
     ("          headers[" ++ dq ++ "Content-Type" ++ dq ++ "] = " ++ dq ++ "application/json" ++ dq ++ ";");
     "        }";
     EmptyString;
     "        let requestBody;";
     "        if (rawBody) {";
     "          requestBody = body;";
     "        } else if (body) {";
     "          requestBody = JSON.stringify(body);";
     "        }";
     EmptyString;
     "        const response = await fetch(url.toString(), {";
     "          method,";
     "          headers,";
     "          body: requestBody,";
     "        });";
     EmptyString;
     ("        const responseContentType = response.headers.get(" ++ dq ++ "content-type" ++ dq ++ ") || " ++ dq ++ dq ++ ";");
     EmptyString;
     "        // Handle non-JSON responses (e.g., KV values)";
     ("        if (!responseContentType.includes(" ++ dq ++ "application/json" ++ dq ++ ")) {");
     "          const text = await response.text();";
     "          if (!response.ok) {";
     ("            throw new Error(" ++ dq ++ "Cloudflare API error: " ++ dq ++ " + response.status + " ++ dq ++ " " ++ dq ++ " + text);");
     "          }";
     "          return { success: true, result: text };";
     "        }";
     EmptyString;
     "        const data = await response.json();";
     EmptyString;
     "        if (!data.success) {";
     ("          const errors = data.errors.map(e => e.code + " ++ dq ++ ": " ++ dq ++ " + e.message).join(" ++ dq ++ ", " ++ dq ++ ");");
     ("          throw new Error(" ++ dq ++ "Cloudflare API error: " ++ dq ++ " + errors);");
     "        }";
     EmptyString;
     "        return data;";
     "      }";
     "    };";
     EmptyString;
     "    try {";
     "      const result = await ("].

(** After the code. *)
Definition code_tpl_4 : string :=
  String.concat nl
    [")();";
     "      return { result, err: undefined };";
     "    } catch (err) {";
     "      return { result: undefined, err: err.message, stack: err.stack };";
     "    }";
     "  }";
     "}";
     "        "].


(** [worker.js] of [createSearchExecutor], up to the specification. *)
Definition search_tpl_1 : string :=
  String.concat nl
    [EmptyString;
     ("import { WorkerEntrypoint } from " ++ dq ++ "cloudflare:workers" ++ dq ++ ";");
     EmptyString;
     "const spec = "].

(** Between the specification and the code. *)
Definition search_tpl_2 : string :=
  String.concat nl
    [";";
     EmptyString;
     "export default class SearchExecutor extends WorkerEntrypoint {";
     "  async evaluate() {";
     "    try {";
     "      const result = await ("].

(** After the code. *)
Definition search_tpl_3 : string :=
  String.concat nl
    [")();";
     "      return { result, err: undefined };";
     "    } catch (err) {";
     "      return { result: undefined, err: err.message, stack: err.stack };";
     "    }";
     "  }";
     "}";
     "        "].

Local Close Scope string_scope.

(** What the callback of [LOADER.get] returns. *)
Record WorkerCode : Type := {
  compatibilityDate : jsstring;
  compatibilityFlags : list jsstring;
  mainModule : jsstring;
  modules : list (jsstring * jsstring)
}.

Definition code_worker_js (apiBase accountId code : jsstring) : jsstring :=
  lit code_tpl_1 ++ JSON_stringify apiBase ++
  lit code_tpl_2 ++ JSON_stringify accountId ++
  lit code_tpl_3 ++ code ++ lit code_tpl_4.

Definition search_worker_js (specJson code : jsstring) : jsstring :=
  lit search_tpl_1 ++ specJson ++ lit search_tpl_2 ++ code ++ lit search_tpl_3.

Definition worker_code (worker_js : jsstring) : WorkerCode :=
  {| compatibilityDate := lit "2026-01-12";
     compatibilityFlags := [lit "nodejs_compat"];
     mainModule := lit "worker.js";
     modules := [(lit "worker.js", worker_js)] |}.

End SandboxDef.

Import SandboxDef.

(** ** The executors, outside the sandbox *)

Module Executor.

(** The hosting capability: [env.LOADER.get(id, callback)], which
    returns a worker or throws, and [worker.getEntrypoint().evaluate(...)],
    the call into the sandbox. *)
Record Loader : Type := {
  Worker : Type;
  LOADER_get : jsstring -> WorkerCode -> completion Worker;
  entrypoint_evaluate : Worker -> list jsval -> completion Response
}.

Record Env : Type := {
  LOADER : Loader;
  CLOUDFLARE_API_BASE : jsstring
}.

Section WithEnv.
Variable env : Env.
Variable engine : Engine.

Let W : Type := Worker (LOADER env).

(** The calls that leave the executor, in order. *)
Inductive event : Type :=
| CallLoaderGet (workerId : jsstring) (code : WorkerCode)
| CallEvaluate (worker : W) (args : list jsval).

(** One call of an executor: how it ends, the cache it leaves and the
    calls it has made. *)
Record call : Type := {
  outcome : completion jsval;
  cache_after : WorkerCache.t W;
  effects : list event
}.

(** [let worker = workerCache.get(key); if (!worker) { ... }]: the worker
    to use, or what [LOADER.get] has thrown. [None] when [set] never
    returns. *)
Definition cached_worker (workerCache : WorkerCache.t W)
    (key workerId : jsstring) (code : WorkerCode)
  : option (completion W * WorkerCache.t W * list event) :=
  match WorkerCache.get key workerCache with
  | (Some worker, cache1) => Some (Return worker, cache1, [])
  | (None, cache1) =>
      match LOADER_get (LOADER env) workerId code with
      | Throw e => Some (Throw e, cache1, [CallLoaderGet workerId code])
      | Return worker =>
          match WorkerCache.set (WorkerCache.enough cache1) key worker cache1 with
          | Some cache2 =>
              Some (Return worker, cache2, [CallLoaderGet workerId code])
          | None => None
          end
      end
  end.

(** [const response = await entrypoint.evaluate(...);
    if (response.err) throw new Error(response.err);
    return response.result]. *)
Definition invoke (worker : W) (args : list jsval) : completion jsval :=
  bind (entrypoint_evaluate (LOADER env) worker args) (fun response =>
  if truthy (err response) then
    Throw (new_Error engine (to_str (err response)))
  else Return (result response)).

Definition execute (workerCache : WorkerCache.t W)
    (key workerId : jsstring) (code : WorkerCode) (args : list jsval)
  : option call :=
  match cached_worker workerCache key workerId code with
  | None => None
  | Some (Throw e, cache1, calls) =>
      Some {| outcome := Throw e; cache_after := cache1; effects := calls |}
  | Some (Return worker, cache1, calls) =>
      Some {| outcome := invoke worker args;
              cache_after := cache1;
              effects := calls ++ [CallEvaluate worker args] |}
  end.

(** The definitions handed to the loader, and the calls of [evaluate],
    among the calls of an executor. *)
Definition loader_calls (calls : list event) : list (jsstring * WorkerCode) :=
  flat_map (fun ev => match ev with
                      | CallLoaderGet workerId code => [(workerId, code)]
                      | CallEvaluate _ _ => []
                      end) calls.

Definition evaluate_calls (calls : list event) : list (W * list jsval) :=
  flat_map (fun ev => match ev with
                      | CallLoaderGet _ _ => []
                      | CallEvaluate worker args => [(worker, args)]
                      end) calls.

(** [installed before after key worker]: the cache [after] holds
    [worker] under [key], is in order, and has no key that [before] had
    not, [key] apart. *)
Definition installed (before after : WorkerCache.t W)
    (key : jsstring) (worker : W) : Prop :=
  WorkerCache.maxSize after = WorkerCache.maxSize before /\
  NoDup (JSMap.keys (WorkerCache.cache after)) /\
  JSMap.get key (WorkerCache.cache after) = Some worker /\
  forall k', k' <> key ->
    JSMap.get k' (WorkerCache.cache before) = None ->
    JSMap.get k' (WorkerCache.cache after) = None.

(** The worker cache that [createCodeExecutor] makes. *)
Definition code_cache : WorkerCache.t W := WorkerCache.new 20.

(** The definition that [createCodeExecutor] hands to the loader. *)
Definition code_definition (code accountId : jsstring) : WorkerCode :=
  worker_code (code_worker_js (CLOUDFLARE_API_BASE env) accountId code).

(** A call of the function that [createCodeExecutor] returns, on the
    worker cache as it stands. *)
Definition createCodeExecutor (workerCache : WorkerCache.t W)
    (code accountId apiToken : jsstring) : option call :=
  let codeHash := simpleHash code in
  let cacheKey := accountId ++ lit ":" ++ codeHash in
  execute workerCache cacheKey (lit "cloudflare-api-" ++ cacheKey)
    (code_definition code accountId) [JStr apiToken].

(** The worker cache that [createSearchExecutor] makes. *)
Definition search_cache : WorkerCache.t W := WorkerCache.new 5.

(** A call of the function that [createSearchExecutor] returns;
    [specJson] is [JSON.stringify(spec)]. *)
Definition createSearchExecutor (specJson : jsstring)
    (workerCache : WorkerCache.t W) (code : jsstring) : option call :=
  let codeHash := simpleHash code in
  execute workerCache codeHash (lit "cloudflare-search-" ++ codeHash)
    (worker_code (search_worker_js specJson code)) [].

(** The worker caches that calls of the two executors lead to. *)
Inductive code_served : WorkerCache.t W -> Prop :=
| code_served_new : code_served code_cache
| code_served_call workerCache code accountId apiToken c :
    code_served workerCache ->
    createCodeExecutor workerCache code accountId apiToken = Some c ->
    code_served (cache_after c).

Inductive search_served (specJson : jsstring) : WorkerCache.t W -> Prop :=
| search_served_new : search_served specJson search_cache
| search_served_call workerCache code c :
    search_served specJson workerCache ->
    createSearchExecutor specJson workerCache code = Some c ->
    search_served specJson (cache_after c).

End WithEnv.

Arguments CallLoaderGet {env} workerId code.
Arguments CallEvaluate {env} worker args.
Arguments outcome {env} c.
Arguments cache_after {env} c.
Arguments effects {env} c.
Arguments loader_calls {env} calls.
Arguments evaluate_calls {env} calls.

(** A loader that instantiates every definition it is given: the worker
    is its identity and its definition, and [evaluate] is left to
    [sandbox]. *)
Definition plain_loader
    (sandbox : jsstring * WorkerCode -> list jsval -> completion Response)
  : Loader :=
  {| Worker := jsstring * WorkerCode;
     LOADER_get := fun workerId code => Return (workerId, code);
     entrypoint_evaluate := sandbox |}.

(** A loader that cannot instantiate anything. *)
Definition failing_loader (e : jsval) : Loader :=
  {| Worker := jsstring * WorkerCode;
     LOADER_get := fun _ _ => Throw e;
     entrypoint_evaluate := fun _ _ => Throw e |}.

End Executor.

(** ** The response truncator *)

Module Truncate.

Section Model.

(** How a result is written out; the truncator measures this text. *)
Variable serialize : jsval -> jsstring.

(** The budget, in the unit the serialized size is measured in. *)
Variable budget : Z.

Definition serialized_size (text : jsstring) : Z := Z.of_nat (List.length text).

(** Modelled from the spec: the note that stands for the part that was
    cut; the module ./truncate is not among the sources. The spec asks
    for an indicator of the original size. *)
Definition indicator (original : Z) : jsstring :=
  lit "... [truncated, original size " ++ decimal original ++ lit "]".

(** Modelled from the spec: [truncateResponse] of ./truncate, which is
    not among the sources. A result within the budget goes through
    unchanged; a larger one is cut so that, with the indicator of its
    original size, it fills the budget and no more. *)
Definition truncateResponse (result : jsval) : jsstring :=
  let text := serialize result in
  let size := serialized_size text in
  if size <=? budget then text
  else
    firstn (Z.to_nat (budget - serialized_size (indicator size))) text
    ++ indicator size.

End Model.

End Truncate.

(** ** Inputs for the examples *)

Module Examples.

Definition key_a : jsstring := lit "a".
Definition key_b : jsstring := lit "b".
Definition key_c : jsstring := lit "c".

(** Two code strings with one hash. *)
Definition code_Aa : jsstring := lit "async () => 'Aa'".
Definition code_BB : jsstring := lit "async () => 'BB'".

Definition api_base : jsstring := lit "https://api.cloudflare.com/client/v4".
Definition account : jsstring := lit "0123456789abcdef".
Definition token_1 : jsstring := lit "token-one".
Definition token_2 : jsstring := lit "token-two".

Definition example_engine : Engine :=
  {| TypeError := fun _ name =>
       JObj [(lit "message", JStr (lit "Cannot read properties: " ++ name))];
     stack_of := fun message => JStr (lit "Error: " ++ message) |}.

(** A sandbox whose [evaluate] returns its arguments. *)
Definition echo_sandbox (worker : jsstring * WorkerCode) (args : list jsval)
  : completion Response :=
  Return {| result := JArr args; err := JUndefined; stack := JUndefined |}.

Definition example_env : Executor.Env :=
  {| Executor.LOADER := Executor.plain_loader echo_sandbox;
     Executor.CLOUDFLARE_API_BASE := api_base |}.

Definition loader_fault : jsval :=
  JObj [(lit "message", JStr (lit "worker could not be loaded"))].

Definition broken_env : Executor.Env :=
  {| Executor.LOADER := Executor.failing_loader loader_fault;
     Executor.CLOUDFLARE_API_BASE := api_base |}.

(** The upstream answers [{success:false, errors:[{code:1000,
    message:"bad auth"}]}] as JSON. *)
Definition bad_auth : jsval :=
  JObj [(lit "success", JBool false);
        (lit "errors",
         JArr [JObj [(lit "code", JNum 1000);
                     (lit "message", JStr (lit "bad auth"))]])].

Definition bad_auth_response : FetchResponse :=
  {| content_type := Some (lit "application/json; charset=UTF-8");
     status := 403;
     text := lit "{}";
     json := Return bad_auth |}.

(** A value of a key-value store, answered as text. *)
Definition text_response (status : Z) : FetchResponse :=
  {| content_type := Some (lit "text/plain");
     status := status;
     text := lit "hello";
     json := Throw JUndefined |}.

(** A serializer that writes a string as it is, and a result of 10001
    characters. *)
Definition plain_serialize (v : jsval) : jsstring :=
  match v with
  | JStr s => s
  | _ => to_str v
  end.

Definition long_result : jsval := JStr (repeat 120 (Z.to_nat 10001)).

(** The first request for [code_Aa]: its worker and its call. *)
Definition worker_Aa : jsstring * WorkerCode :=
  (lit "cloudflare-api-" ++ cacheKey account code_Aa,
   Executor.code_definition example_env code_Aa account).

Definition call_Aa : Executor.call example_env :=
  Executor.Build_call example_env
    (Return (JArr [JStr token_1]))
    (WorkerCache.mk [(cacheKey account code_Aa, worker_Aa)] 20)
    [Executor.CallLoaderGet (fst worker_Aa) (snd worker_Aa);
     Executor.CallEvaluate (env := example_env) worker_Aa [JStr token_1]].

End Examples.

Import Examples.

(** ** The hash as a polynomial *)

Module Poly.

(** The value of a string as a polynomial in 31, its first code unit
    with the highest power, on top of [acc]. *)
Definition poly31 (str : jsstring) (acc : Z) : Z :=
  fold_left (fun a c => 31 * a + c) str acc.

(** A character that [simpleHash] can return: the minus sign, a digit or
    a lower-case letter. *)
Definition hash_char (c : Z) : Prop :=
  c = 45 \/ 48 <= c <= 57 \/ 97 <= c <= 122.

End Poly.

(** ** A loader whose sandboxes run the bridge *)

Module Bridged.

(** A loader that instantiates every definition, and whose workers run
    [evaluate] of the bridge around what [behaviour] says the embedded
    code does. *)
Definition bridged_loader (engine : Engine)
    (behaviour : jsstring * WorkerCode -> list jsval -> completion jsval)
  : Executor.Loader :=
  Executor.plain_loader (fun worker args => evaluate engine (behaviour worker args)).

Definition bridged_env (engine : Engine)
    (behaviour : jsstring * WorkerCode -> list jsval -> completion jsval)
  : Executor.Env :=
  {| Executor.LOADER := bridged_loader engine behaviour;
     Executor.CLOUDFLARE_API_BASE := api_base |}.

(** The fault of a sandbox that cannot be started. *)
Definition start_fault : jsval :=
  JObj [(lit "message", JStr (lit "worker failed to start"))].

(** A loader that returns a worker for every definition, while no worker
    can be entered. *)
Definition lazy_broken_env : Executor.Env :=
  {| Executor.LOADER :=
       Executor.plain_loader (fun _ _ => Throw start_fault);
     Executor.CLOUDFLARE_API_BASE := api_base |}.

End Bridged.

(** ** Reading a string literal *)

Module Literal.

(** The inside of a double-quoted string literal, as a reader of the
    worker text takes it: a backslash takes the next character with it;
    any other character is neither the quote nor a control character. *)
Fixpoint literal_body_ok (s : jsstring) : bool :=
  match s with
  | [] => true
  | c :: rest =>
      if c =? 92 then
        match rest with
        | [] => false
        | _ :: rest' => literal_body_ok rest'
        end
      else negb (c =? 34) && (32 <=? c) && literal_body_ok rest
  end.

(** The character that a one-letter escape stands for. *)
Definition escape_value (e : Z) : option Z :=
  if e =? 98 then Some 8
  else if e =? 116 then Some 9
  else if e =? 110 then Some 10
  else if e =? 102 then Some 12
  else if e =? 114 then Some 13
  else if e =? 34 then Some 34
  else if e =? 92 then Some 92
  else None.

(** The string that the inside of a literal stands for, as [JSON.parse]
    reads it; [None] when it is not the inside of a literal. *)
Fixpoint unquote_units (s : jsstring) : option jsstring :=
  match s with
  | [] => Some []
  | c :: rest =>
      if c =? 92 then
        match rest with
        | [] => None
        | e :: rest1 =>
            if e =? 117 then
              match rest1 with
              | h1 :: h2 :: h3 :: h4 :: rest2 =>
                  option_map (cons (parse_digits 16 [h1; h2; h3; h4]))
                    (unquote_units rest2)
              | _ => None
              end
            else
              match escape_value e with
              | Some v => option_map (cons v) (unquote_units rest1)
              | None => None
              end
        end
      else if c =? 34 then None
      else option_map (cons c) (unquote_units rest)
  end.

(** [JSON.parse] on the text of a string literal. *)
Definition JSON_parse_string (text : jsstring) : option jsstring :=
  match text with
  | 34 :: rest =>
      match rev rest with
      | 34 :: body => unquote_units (rev body)
      | _ => None
      end
  | _ => None
  end.

End Literal.

(** ** The code that the model writes, cleaned *)

Module Agent.

(** White space and line terminators, as [trim] and [\s] take them. *)
Definition is_space (c : Z) : bool :=
  (c =? 9) || (c =? 10) || (c =? 11) || (c =? 12) || (c =? 13) || (c =? 32)
  || (c =? 160) || (c =? 5760) || ((8192 <=? c) && (c <=? 8202))
  || (c =? 8232) || (c =? 8233) || (c =? 8239) || (c =? 8287)
  || (c =? 12288) || (c =? 65279).

Fixpoint trimStart (s : jsstring) : jsstring :=
  match s with
  | [] => []
  | c :: rest => if is_space c then trimStart rest else s
  end.

Definition trimEnd (s : jsstring) : jsstring := rev (trimStart (rev s)).

(** [s.trim()]. *)
Definition trim (s : jsstring) : jsstring := trimEnd (trimStart s).

(** [s.slice(n)]. *)
Definition slice_from (n : nat) (s : jsstring) : jsstring := skipn n s.

(** The first [replace] of [generateCode], of the pattern
    [^```(?:javascript|js)?\n?] by nothing: the opening fence at the
    start, the tag [javascript] or else [js] when it follows, and a line
    feed when it follows. *)
Definition strip_opening_fence (code : jsstring) : jsstring :=
  if startsWith code (lit "```") then
    let after_fence := slice_from 3 code in
    let after_tag :=
      if startsWith after_fence (lit "javascript") then slice_from 10 after_fence
      else if startsWith after_fence (lit "js") then slice_from 2 after_fence
      else after_fence in
    match after_tag with
    | 10 :: rest => rest
    | _ => after_tag
    end
  else code.

(** The second [replace], of the pattern [\n?```$] by nothing: the
    closing fence at the very end, with the line feed before it when
    there is one. *)
Definition strip_closing_fence (code : jsstring) : jsstring :=
  match rev code with
  | 96 :: 96 :: 96 :: 10 :: before => rev before
  | 96 :: 96 :: 96 :: before => rev before
  | _ => code
  end.

(** What [generateCode] returns for the text of the model. *)
Definition clean_code (text : jsstring) : jsstring :=
  let code := trim text in
  let code :=
    if startsWith code (lit "```")
    then strip_closing_fence (strip_opening_fence code)
    else code in
  trim code.

Definition all_space (s : jsstring) : Prop :=
  Forall (fun c => is_space c = true) s.

(** A fenced block: the fence, a tag, the body on its own lines, the
    fence. *)
Definition fenced (tag body : jsstring) : jsstring :=
  lit "```" ++ tag ++ [10] ++ body ++ [10] ++ lit "```".

End Agent.

(** ** The entry point: the token of a request *)

Module Index.

Import Agent.

(** The longest run of characters that are not white space, at the
    start of a string: what [(\S+)] takes. *)
Fixpoint take_word (s : jsstring) : jsstring :=
  match s with
  | [] => []
  | c :: rest => if is_space c then [] else c :: take_word rest
  end.

(** A match of the pattern [Bearer\s+(\S+)] that starts at the start of
    the string, and what its group takes. *)
Definition match_bearer_here (s : jsstring) : option jsstring :=
  if startsWith s (lit "Bearer") then
    match skipn 6 s with
    | c :: after =>
        if is_space c then
          match take_word (trimStart after) with
          | [] => None
          | word => Some word
          end
        else None
    | [] => None
    end
  else None.

(** [extractToken]: the group of the first match in the header. *)
Fixpoint extractToken (authHeader : jsstring) : option jsstring :=
  match match_bearer_here authHeader with
  | Some token => Some token
  | None =>
      match authHeader with
      | [] => None
      | _ :: rest => extractToken rest
      end
  end.

Definition isLocalhostHostname (hostname : jsstring) : bool :=
  if jsstring_eq_dec hostname (lit "localhost") then true
  else if jsstring_eq_dec hostname (lit "127.0.0.1") then true
  else if jsstring_eq_dec hostname (lit "0.0.0.0") then true
  else false.

(** [getApiTokenFromEnv], on the value of [CLOUDFLARE_API_TOKEN] in the
    environment. *)
Definition getApiTokenFromEnv (token : jsval) : option jsstring :=
  match token with
  | JStr (c :: s) => Some (c :: s)
  | _ => None
  end.

(** [!token] on a string or [null]. *)
Definition no_token (token : option jsstring) : bool :=
  match token with
  | Some (_ :: _) => false
  | _ => true
  end.

(** [if (!token) return jsonError("Authorization header required")]. *)
Definition require_token (token : option jsstring) : jsstring + jsstring :=
  if no_token token then inl (lit "Authorization header required")
  else match token with
       | Some t => inr t
       | None => inl (lit "Authorization header required")
       end.

(** The first part of [fetch]: the token of the request, or the message
    of the refusal. [authHeader] is what [headers.get] returns, [null]
    when the header is missing; an empty header counts as missing. *)
Definition request_token (authHeader : option jsstring) (hostname : jsstring)
    (envToken : jsval) : jsstring + jsstring :=
  match authHeader with
  | Some (c :: h) =>
      let token := extractToken (c :: h) in
      if no_token token then inl (lit "Invalid Authorization header format")
      else require_token token
  | _ =>
      require_token
        (if isLocalhostHostname hostname then getApiTokenFromEnv envToken
         else None)
  end.

(** The answers of the API as the interfaces [CloudflareResponse] and
    [Account] of the module declare them; a field that may be missing
    is an option. *)
Record Account : Type := { id : jsstring; name : jsstring }.

Record ApiError : Type := { code : Z; message : jsstring }.

Record CloudflareResponse (T : Type) : Type := {
  success : bool;
  result : option T;
  errors : option (list ApiError)
}.

Arguments success {T} c.
Arguments result {T} c.
Arguments errors {T} c.

Record Verification : Type := {
  valid : bool;
  accountId : option jsstring;
  error : option jsstring
}.

(** [a || b] on strings, with [None] for [undefined]. *)
Definition or_else (a : option jsstring) (b : jsstring) : jsstring :=
  match a with
  | Some (c :: s) => c :: s
  | _ => b
  end.

Section WithInstanceOf.

(** [e instanceof Error] on an object, which the engine decides. *)
Variable is_Error : jsval -> bool.

(** [err instanceof Error ? err.message : "Unknown error"], as the
    template of the [catch] writes it. *)
Definition caught_message (e : jsval) : jsstring :=
  match e with
  | JObj fields =>
      if is_Error e then to_str (field (lit "message") fields)
      else lit "Unknown error"
  | _ => lit "Unknown error"
  end.

(** [verifyToken], on what the two requests have answered, or on what
    one of them has thrown. *)
Definition verifyToken
    (answers : completion (CloudflareResponse jsval
                           * CloudflareResponse (list Account)))
  : Verification :=
  match answers with
  | Throw e =>
      {| valid := false; accountId := None;
         error := Some (lit "Failed to verify token: " ++ caught_message e) |}
  | Return (userData, accountsData) =>
      if success userData then
        {| valid := true; accountId := None; error := None |}
      else
        match success accountsData, result accountsData with
        | true, Some (first :: others) =>
            match others with
            | _ :: _ =>
                {| valid := false; accountId := None;
                   error := Some (lit "Token has access to multiple accounts - use a single-account token") |}
            | [] =>
                {| valid := true; accountId := Some (id first); error := None |}
            end
        | _, _ =>
            {| valid := false; accountId := None;
               error :=
                 Some (or_else
                         (option_map
                            (fun reported => join (lit ", ") (map message reported))
                            (errors userData))
                         (lit "Invalid token")) |}
        end
  end.

(** The second part of [fetch]: the refusal with its message, or the
    token and the account that [createServer] is given. *)
Definition authorize (token : jsstring)
    (answers : completion (CloudflareResponse jsval
                           * CloudflareResponse (list Account)))
  : jsstring + (jsstring * option jsstring) :=
  let verification := verifyToken answers in
  if negb (valid verification) then
    inl (or_else (error verification) (lit "Token verification failed"))
  else inr (token, accountId verification).

End WithInstanceOf.

End Index.


(** ** The request of [cloudflare.request] *)

Module Request.

(** What [cloudflare.request] takes from its options to make the
    headers and the body; a missing option is [undefined]. *)
Record Options : Type := {
  body : jsval;
  contentType : jsval;
  rawBody : jsval
}.

Section WithStringify.

(** [JSON.stringify] on a value, which the engine provides. *)
Variable JSON_stringify_value : jsval -> jsval.

(** The headers of the request, in the order in which they are set. *)
Definition headers (apiToken : jsstring) (options : Options)
  : list (jsstring * jsval) :=
  let authorization := (lit "Authorization", JStr (lit "Bearer " ++ apiToken)) in
  if truthy (contentType options) then
    [authorization; (lit "Content-Type", contentType options)]
  else if truthy (body options) && negb (truthy (rawBody options)) then
    [authorization; (lit "Content-Type", JStr (lit "application/json"))]
  else [authorization].

(** [requestBody], [undefined] when it is not assigned. *)
Definition requestBody (options : Options) : jsval :=
  if truthy (rawBody options) then body options
  else if truthy (body options) then JSON_stringify_value (body options)
  else JUndefined.

End WithStringify.

End Request.

(** ** The tools of the server *)

Module Tool.

(** What a tool returns: the text of its one content item, and whether
    it is flagged as an error. *)
Record ToolResult : Type := {
  text : jsstring;
  isError : bool
}.

Section WithEngine.

(** [e instanceof Error] on an object, which the engine decides. *)
Variable is_Error : jsval -> bool.

(** [truncateResponse], which is not among the sources: a function that
    returns a text or throws. *)
Variable truncateResponse : jsval -> completion jsstring.

(** [error instanceof Error ? error.message : String(error)], as the
    template of the [catch] writes it. *)
Definition errorMessage (e : jsval) : jsstring :=
  match e with
  | JObj fields =>
      if is_Error e then to_str (field (lit "message") fields) else to_str e
  | _ => to_str e
  end.

(** The body of a tool, on how the call of its executor has ended. *)
Definition tool (execution : completion jsval) : ToolResult :=
  match bind execution truncateResponse with
  | Return text => {| text := text; isError := false |}
  | Throw e => {| text := lit "Error: " ++ errorMessage e; isError := true |}
  end.

End WithEngine.

End Tool.

(** * Properties *)

(** ** Cache key derivation *)

Lemma toInt32_range (z : Z) : int32 (toInt32 z).
Proof.
  unfold int32, toInt32.
  assert (H : 0 <= (z + 2 ^ 31) mod 2 ^ 32 < 2 ^ 32)
    by (apply Z.mod_pos_bound; lia).
  lia.
Qed.

Lemma toInt32_small (z : Z) : int32 z -> toInt32 z = z.
Proof.
  unfold int32, toInt32. intros H.
  rewrite Z.mod_small by lia. lia.
Qed.

Lemma toInt32_add_l (a b : Z) : toInt32 (toInt32 a + b) = toInt32 (a + b).
Proof.
  unfold toInt32.
  replace ((a + 2 ^ 31) mod 2 ^ 32 - 2 ^ 31 + b + 2 ^ 31)
    with ((a + 2 ^ 31) mod 2 ^ 32 + b) by lia.
  rewrite Zplus_mod_idemp_l. f_equal. f_equal. lia.
Qed.

Lemma band_diag (a : Z) : band a a = toInt32 a.
Proof.
  unfold band. rewrite Z.land_diag.
  apply toInt32_small, toInt32_range.
Qed.

Lemma shl_5 (a : Z) : int32 a -> shl a 5 = toInt32 (a * 32).
Proof.
  intros H. unfold shl. rewrite (toInt32_small a H).
  change (5 mod 32) with 5. rewrite Z.shiftl_mul_pow2 by lia. reflexivity.
Qed.

(** The loop body is the step of the usual multiply-by-31 string hash,
    wrapped to 32 bits. *)
Lemma hash_step_31 (hash char : Z) :
  int32 hash -> hash_step hash char = toInt32 (31 * hash + char).
Proof.
  intros H. unfold hash_step. cbv zeta. rewrite band_diag, (shl_5 _ H).
  replace (toInt32 (hash * 32) - hash + char)
    with (toInt32 (hash * 32) + (char - hash)) by lia.
  rewrite toInt32_add_l. f_equal. lia.
Qed.

(** The sum of the loop body stays far inside the integers that a
    number holds exactly, so integer arithmetic computes it. *)
Lemma hash_step_exact (hash char : Z) :
  int32 hash -> code_unit char ->
  Z.abs (shl hash 5 - hash + char) < 2 ^ 53.
Proof.
  intros Hh Hc. pose proof (toInt32_range (hash * 32)) as Hs.
  rewrite (shl_5 _ Hh). unfold int32, code_unit in *. lia.
Qed.

Lemma hash_step_range (hash char : Z) : int32 (hash_step hash char).
Proof. unfold hash_step. cbv zeta. rewrite band_diag. apply toInt32_range. Qed.

Lemma hash_loop_range (str : jsstring) :
  forall hash, int32 hash -> int32 (hash_loop str hash).
Proof.
  induction str as [| c str IH]; intros hash H; simpl.
  - exact H.
  - apply IH, hash_step_range.
Qed.

Lemma hash_code_range (str : jsstring) : int32 (hash_code str).
Proof. apply hash_loop_range. unfold int32. lia. Qed.

Lemma cacheKey_of_hash (accountId code code' : jsstring) :
  simpleHash code = simpleHash code' ->
  cacheKey accountId code = cacheKey accountId code'.
Proof. unfold cacheKey. intros ->. reflexivity. Qed.

Lemma Aa_BB_distinct : code_Aa <> code_BB.
Proof. intros H. vm_compute in H. discriminate H. Qed.

Lemma Aa_BB_collide : simpleHash code_Aa = simpleHash code_BB.
Proof. reflexivity. Qed.

(** ** Reading the digits back *)

Lemma digit_value_digit (d : Z) : 0 <= d < 36 -> digit_value (digit d) = d.
Proof.
  intros H. unfold digit, digit_value.
  destruct (Z.ltb_spec d 10) as [H10 | H10].
  - destruct (Z.ltb_spec (48 + d) 58); lia.
  - destruct (Z.ltb_spec (97 + (d - 10)) 58); lia.
Qed.

Lemma digit_not_minus (d : Z) : 0 <= d < 36 -> digit d <> 45.
Proof. intros H. unfold digit. destruct (Z.ltb_spec d 10); lia. Qed.

Lemma digits_S (radix : Z) (fuel : nat) (n : Z) (acc : jsstring) :
  digits radix (S fuel) n acc =
  if n / radix =? 0 then digit (n mod radix) :: acc
  else digits radix fuel (n / radix) (digit (n mod radix) :: acc).
Proof. reflexivity. Qed.

Lemma digits_acc (radix : Z) : forall fuel n acc,
  digits radix fuel n acc = digits radix fuel n [] ++ acc.
Proof.
  induction fuel as [| fuel IH]; intros n acc; cbn [digits].
  - reflexivity.
  - destruct (n / radix =? 0); [reflexivity |].
    rewrite (IH _ (_ :: acc)), (IH _ [_]), <- app_assoc. reflexivity.
Qed.

Lemma parse_digits_snoc (radix : Z) (s : jsstring) (c : Z) :
  parse_digits radix (s ++ [c]) = parse_digits radix s * radix + digit_value c.
Proof. unfold parse_digits. rewrite fold_left_app. reflexivity. Qed.

(** With fuel for every digit, the digits written read back as the
    number. *)
Lemma parse_digits_digits (radix : Z) : 2 <= radix <= 36 ->
  forall fuel n, 0 <= n < radix ^ Z.of_nat (S fuel) ->
  parse_digits radix (digits radix (S fuel) n []) = n.
Proof.
  intros Hr. induction fuel as [| fuel IH]; intros n Hn.
  - change (radix ^ Z.of_nat 1) with (radix ^ 1) in Hn. rewrite Z.pow_1_r in Hn.
    rewrite digits_S, Z.div_small, Z.mod_small by lia. cbn.
    rewrite digit_value_digit; lia.
  - rewrite digits_S.
    pose proof (Z.mod_pos_bound n radix ltac:(lia)) as Hmod.
    destruct (Z.eqb_spec (n / radix) 0) as [Hq | Hq].
    + unfold parse_digits. cbn. rewrite digit_value_digit by lia.
      rewrite (Z.div_mod n radix) at 2 by lia. lia.
    + rewrite digits_acc, parse_digits_snoc, digit_value_digit by lia.
      rewrite IH.
      * rewrite (Z.div_mod n radix) at 3 by lia. lia.
      * split; [apply Z.div_pos; lia |].
        apply Z.div_lt_upper_bound; [lia |].
        rewrite Nat2Z.inj_succ, Z.pow_succ_r in Hn by lia. lia.
Qed.

Lemma digits_fuel_enough (radix n : Z) : 2 <= radix -> 0 <= n ->
  n < radix ^ Z.of_nat (digits_fuel n).
Proof.
  intros Hr Hn. unfold digits_fuel.
  rewrite Nat2Z.inj_succ, Z2Nat.id by apply Z.log2_nonneg.
  apply Z.lt_le_trans with (2 ^ Z.succ (Z.log2 n)).
  - destruct (Z.eq_dec n 0) as [-> | Hnz]; [reflexivity |].
    apply Z.log2_spec. lia.
  - apply Z.pow_le_mono_l. lia.
Qed.

Lemma digits_no_minus (radix : Z) : 2 <= radix <= 36 ->
  forall fuel n acc, Forall (fun c => c <> 45) acc ->
  Forall (fun c => c <> 45) (digits radix fuel n acc).
Proof.
  intros Hr. induction fuel as [| fuel IH]; intros n acc Hacc; cbn [digits].
  - exact Hacc.
  - assert (Hd : digit (n mod radix) <> 45).
    { apply digit_not_minus.
      pose proof (Z.mod_pos_bound n radix ltac:(lia)). lia. }
    destruct (n / radix =? 0); [| apply IH]; constructor; assumption.
Qed.

(** [toString(radix)] tells integers apart. *)
Lemma toStringRadix_injective (radix a b : Z) : 2 <= radix <= 36 ->
  toStringRadix radix a = toStringRadix radix b -> a = b.
Proof.
  intros Hr. unfold toStringRadix.
  assert (Hread : forall n, 0 <= n ->
            parse_digits radix (digits radix (digits_fuel n) n []) = n).
  { intros n Hn. apply parse_digits_digits; [exact Hr |].
    split; [exact Hn | apply digits_fuel_enough; lia]. }
  assert (Hminus : forall n x s, digits radix (digits_fuel n) n [] = x :: s -> x <> 45).
  { intros n x s H.
    pose proof (digits_no_minus radix Hr (digits_fuel n) n [] (Forall_nil _)) as Hall.
    rewrite H in Hall. inversion Hall. assumption. }
  destruct (Z.ltb_spec a 0) as [Ha | Ha]; destruct (Z.ltb_spec b 0) as [Hb | Hb];
    intros H.
  - apply (f_equal (@tl Z)) in H. cbn [tl] in H.
    apply (f_equal (parse_digits radix)) in H.
    rewrite !Hread in H by lia. lia.
  - symmetry in H. apply Hminus in H. congruence.
  - apply Hminus in H. congruence.
  - apply (f_equal (parse_digits radix)) in H. rewrite !Hread in H by lia. exact H.
Qed.

(** Two codes have one cache key under an account exactly when they
    have one 32-bit hash. *)
Lemma cacheKey_eq_iff (accountId code code' : jsstring) :
  cacheKey accountId code = cacheKey accountId code' <->
  hash_code code = hash_code code'.
Proof.
  unfold cacheKey, simpleHash, toString36. split.
  - intros H. apply app_inv_head, app_inv_head in H.
    apply toStringRadix_injective in H; [exact H | lia].
  - intros ->. reflexivity.
Qed.

(** ** The pigeonhole *)

(** Either a function tells the items of a list apart, or two of them
    share a value. *)
Lemma shared_value (f : jsstring -> Z) : forall codes,
  NoDup codes ->
  NoDup (map f codes) \/
  exists a b, In a codes /\ In b codes /\ a <> b /\ f a = f b.
Proof.
  induction 1 as [| x codes HnIn Hnd IH]; cbn [map].
  - left. constructor.
  - destruct IH as [IH | (a & b & Ha & Hb & Hne & Heq)].
    + destruct (in_dec Z.eq_dec (f x) (map f codes)) as [HIn | HnIn'].
      * right. apply in_map_iff in HIn. destruct HIn as (b & Hb & HInb).
        exists x, b. repeat split; [now left | now right | | congruence].
        intros ->. contradiction.
      * left. constructor; assumption.
    + right. exists a, b. repeat split; [now right | now right | assumption ..].
Qed.

(** All signed 32-bit integers, listed. *)
Lemma int32_listed (hs : list Z) :
  Forall int32 hs -> NoDup hs -> Z.of_nat (List.length hs) <= 2 ^ 32.
Proof.
  intros Hall Hnd.
  set (all := map (fun i => Z.of_nat i - 2 ^ 31) (seq 0 (Z.to_nat (2 ^ 32)))).
  assert (Hincl : incl hs all).
  { intros h Hh. rewrite Forall_forall in Hall. specialize (Hall h Hh).
    unfold int32 in Hall. unfold all. apply in_map_iff.
    exists (Z.to_nat (h + 2 ^ 31)). split; [lia |].
    apply in_seq. lia. }
  pose proof (NoDup_incl_length Hnd Hincl) as Hlen.
  unfold all in Hlen. rewrite length_map, length_seq in Hlen. lia.
Qed.

(** The pigeonhole: among more than 2^32 distinct code strings, two have
    one hash. *)
Lemma simpleHash_pigeonhole (codes : list jsstring) :
  NoDup codes ->
  2 ^ 32 < Z.of_nat (List.length codes) ->
  exists a b,
    In a codes /\ In b codes /\ a <> b /\ simpleHash a = simpleHash b.
Proof.
  intros Hnd Hmany.
  destruct (shared_value hash_code codes Hnd) as [Hinj | (a & b & Ha & Hb & Hne & Heq)].
  - exfalso.
    assert (Hall : Forall int32 (map hash_code codes)).
    { apply Forall_forall. intros h Hh. apply in_map_iff in Hh.
      destruct Hh as (c & <- & _). apply hash_code_range. }
    pose proof (int32_listed _ Hall Hinj) as Hlen.
    rewrite length_map in Hlen. lia.
  - exists a, b. repeat split; try assumption.
    unfold simpleHash. rewrite Heq. reflexivity.
Qed.

(** ** The insertion-ordered map *)

Section JSMapFacts.
Context {V : Type}.
Implicit Types (m : JSMap.t V) (k key : jsstring) (v : V).

Lemma get_None_keys key m : JSMap.get key m = None <-> ~ In key (JSMap.keys m).
Proof.
  induction m as [| [k v] m IH]; simpl.
  - tauto.
  - destruct (jsstring_eq_dec key k) as [-> | Hne].
    + split; [discriminate | intros H; exfalso; apply H; now left].
    + rewrite IH. split.
      * intros H [E | HIn]; [congruence | tauto].
      * tauto.
Qed.

Lemma get_Some_keys key m v : JSMap.get key m = Some v -> In key (JSMap.keys m).
Proof.
  intros H. destruct (in_dec jsstring_eq_dec key (JSMap.keys m)) as [HIn | HnIn].
  - exact HIn.
  - apply get_None_keys in HnIn. congruence.
Qed.

Lemma has_false_keys key m : JSMap.has key m = false <-> ~ In key (JSMap.keys m).
Proof.
  unfold JSMap.has. rewrite <- get_None_keys.
  destruct (JSMap.get key m); split; congruence.
Qed.

Lemma delete_absent key m : ~ In key (JSMap.keys m) -> JSMap.delete key m = m.
Proof.
  induction m as [| [k v] m IH]; simpl; intros H.
  - reflexivity.
  - destruct (jsstring_eq_dec key k) as [-> | Hne].
    + exfalso. apply H. now left.
    + f_equal. apply IH. tauto.
Qed.

Lemma keys_delete key m :
  NoDup (JSMap.keys m) ->
  JSMap.keys (JSMap.delete key m) = remove jsstring_eq_dec key (JSMap.keys m).
Proof.
  induction m as [| [k v] m IH]; simpl; intros Hnd.
  - reflexivity.
  - inversion Hnd as [| ? ? HnIn Hnd']; subst.
    destruct (jsstring_eq_dec key k) as [-> | Hne].
    + symmetry. apply notin_remove. exact HnIn.
    + simpl. f_equal. apply IH. exact Hnd'.
Qed.

Lemma length_delete key m :
  (List.length (JSMap.delete key m) <= List.length m)%nat.
Proof.
  induction m as [| [k v] m IH]; simpl.
  - lia.
  - destruct (jsstring_eq_dec key k); simpl; lia.
Qed.

Lemma length_delete_present key m :
  In key (JSMap.keys m) ->
  S (List.length (JSMap.delete key m)) = List.length m.
Proof.
  induction m as [| [k v] m IH]; simpl; intros H.
  - contradiction.
  - destruct (jsstring_eq_dec key k) as [-> | Hne]; simpl.
    + reflexivity.
    + f_equal. apply IH. destruct H; [congruence | assumption].
Qed.

Lemma set_absent key v m :
  ~ In key (JSMap.keys m) -> JSMap.set key v m = m ++ [(key, v)].
Proof.
  induction m as [| [k v'] m IH]; simpl; intros H.
  - reflexivity.
  - destruct (jsstring_eq_dec key k) as [-> | Hne].
    + exfalso. apply H. now left.
    + f_equal. apply IH. tauto.
Qed.

Lemma keys_app m m' : JSMap.keys (m ++ m') = JSMap.keys m ++ JSMap.keys m'.
Proof. apply map_app. Qed.

Lemma get_app_absent key m m' :
  ~ In key (JSMap.keys m) -> JSMap.get key (m ++ m') = JSMap.get key m'.
Proof.
  induction m as [| [k v] m IH]; simpl; intros H.
  - reflexivity.
  - destruct (jsstring_eq_dec key k) as [-> | Hne].
    + exfalso. apply H. now left.
    + apply IH. tauto.
Qed.

Lemma keys_skipn n m : JSMap.keys (skipn n m) = skipn n (JSMap.keys m).
Proof. unfold JSMap.keys. symmetry. apply skipn_map. Qed.

Lemma unlink_keys key m :
  NoDup (JSMap.keys m) ->
  JSMap.keys (WorkerCache.unlink key m) = remove jsstring_eq_dec key (JSMap.keys m).
Proof.
  intros Hnd. unfold WorkerCache.unlink.
  destruct (JSMap.has key m) eqn:Hhas.
  - apply keys_delete, Hnd.
  - apply has_false_keys in Hhas. symmetry. apply notin_remove, Hhas.
Qed.

Lemma length_unlink key m :
  (List.length (WorkerCache.unlink key m) <= List.length m)%nat.
Proof.
  unfold WorkerCache.unlink. destruct (JSMap.has key m).
  - apply length_delete.
  - lia.
Qed.

Lemma evict_oldest_tl m : WorkerCache.evict_oldest m = tl m.
Proof.
  unfold WorkerCache.evict_oldest. destruct m as [| [k v] m]; simpl.
  - reflexivity.
  - destruct (jsstring_eq_dec k k); [reflexivity | congruence].
Qed.

End JSMapFacts.

(** ** The eviction loop *)

Section EvictFacts.
Context {V : Type}.
Implicit Types (m s : JSMap.t V) (k key : jsstring) (v : V).

Lemma evict_step fuel maxSize m :
  WorkerCache.evict (S fuel) maxSize m =
  if JSMap.size m >=? maxSize then WorkerCache.evict fuel maxSize (tl m)
  else Some m.
Proof. simpl. rewrite evict_oldest_tl. reflexivity. Qed.

Lemma evict_zero maxSize m :
  WorkerCache.evict 0 maxSize m =
  if JSMap.size m >=? maxSize then None else Some m.
Proof. reflexivity. Qed.

(** When the loop ends, it has dropped the oldest entries and nothing
    else, and as few of them as leave room for one more. *)
Lemma evict_Some fuel maxSize : forall m m',
  WorkerCache.evict fuel maxSize m = Some m' ->
  1 <= maxSize /\
  m' = skipn (List.length m - Z.to_nat (maxSize - 1)) m /\
  JSMap.size m' < maxSize.
Proof.
  induction fuel as [| fuel IH]; intros m m'.
  - rewrite evict_zero. unfold JSMap.size.
    destruct (Z.geb_spec (Z.of_nat (List.length m)) maxSize) as [Hge | Hlt];
      [discriminate |].
    intros [= <-].
    replace (List.length m - Z.to_nat (maxSize - 1))%nat with 0%nat by lia.
    simpl. repeat split; lia.
  - rewrite evict_step. unfold JSMap.size.
    destruct (Z.geb_spec (Z.of_nat (List.length m)) maxSize) as [Hge | Hlt].
    + intros H. destruct (IH _ _ H) as (H1 & -> & Hsz).
      repeat split; [exact H1 | | exact Hsz].
      destruct m as [| e m]; [cbn [List.length] in Hge; lia |].
      cbn [List.length tl] in *.
      replace (S (List.length m) - Z.to_nat (maxSize - 1))%nat
        with (S (List.length m - Z.to_nat (maxSize - 1))) by lia.
      reflexivity.
    + intros [= <-].
      replace (List.length m - Z.to_nat (maxSize - 1))%nat with 0%nat by lia.
      simpl. repeat split; lia.
Qed.

(** With a maximum of at least one the loop ends, within as many rounds
    as there are entries. *)
Lemma evict_ends fuel maxSize : forall m,
  1 <= maxSize ->
  (List.length m - Z.to_nat (maxSize - 1) <= fuel)%nat ->
  exists m', WorkerCache.evict fuel maxSize m = Some m'.
Proof.
  induction fuel as [| fuel IH]; intros m H1 Hf.
  - rewrite evict_zero. unfold JSMap.size.
    destruct (Z.geb_spec (Z.of_nat (List.length m)) maxSize); [lia | eauto].
  - rewrite evict_step. unfold JSMap.size.
    destruct (Z.geb_spec (Z.of_nat (List.length m)) maxSize); [| eauto].
    apply IH; [exact H1 |]. destruct m; cbn [List.length tl] in *; lia.
Qed.

(** With a maximum below one the loop never ends: an empty map gives no
    key to delete, and its size stays at zero. *)
Lemma evict_diverges fuel maxSize : forall m,
  maxSize <= 0 -> WorkerCache.evict fuel maxSize m = None.
Proof.
  induction fuel as [| fuel IH]; intros m H0.
  - rewrite evict_zero. unfold JSMap.size.
    destruct (Z.geb_spec (Z.of_nat (List.length m)) maxSize); [reflexivity | lia].
  - rewrite evict_step. unfold JSMap.size.
    destruct (Z.geb_spec (Z.of_nat (List.length m)) maxSize); [| lia].
    apply IH, H0.
Qed.

Lemma evict_states_length fuel maxSize : forall m s,
  In s (WorkerCache.evict_states fuel maxSize m) ->
  (List.length s <= List.length m)%nat.
Proof.
  induction fuel as [| fuel IH]; intros m s; simpl.
  - destruct (JSMap.size m >=? maxSize); simpl; tauto.
  - destruct (JSMap.size m >=? maxSize); simpl; [| tauto].
    rewrite evict_oldest_tl. intros [<- | HIn].
    + destruct m; cbn [List.length tl]; lia.
    + apply IH in HIn. destruct m; cbn [List.length tl] in *; lia.
Qed.

End EvictFacts.

(** ** Lists of keys *)

Lemma NoDup_remove_key (k : jsstring) (l : list jsstring) :
  NoDup l -> NoDup (remove jsstring_eq_dec k l).
Proof.
  induction 1 as [| x l HnIn Hnd IH]; simpl.
  - constructor.
  - destruct (jsstring_eq_dec k x); [exact IH |].
    constructor; [| exact IH].
    intros HIn. apply in_remove in HIn. tauto.
Qed.

Lemma NoDup_snoc (k : jsstring) (l : list jsstring) :
  NoDup l -> ~ In k l -> NoDup (l ++ [k]).
Proof.
  induction 1 as [| x l HnIn Hnd IH]; simpl; intros Hk.
  - constructor; [tauto | constructor].
  - constructor.
    + rewrite in_app_iff. simpl. intros [H | [H | []]]; [tauto | subst; tauto].
    + apply IH. tauto.
Qed.

Lemma NoDup_skipn (n : nat) (l : list jsstring) : NoDup l -> NoDup (skipn n l).
Proof.
  intros H. rewrite <- (firstn_skipn n l) in H.
  apply NoDup_app_remove_l in H. exact H.
Qed.

Lemma In_skipn {A : Type} (n : nat) (k : A) (l : list A) :
  In k (skipn n l) -> In k l.
Proof.
  intros H. rewrite <- (firstn_skipn n l). apply in_or_app. now right.
Qed.

Lemma remove_rev (k : jsstring) (l : list jsstring) :
  remove jsstring_eq_dec k (rev l) = rev (remove jsstring_eq_dec k l).
Proof.
  induction l as [| x l IH]; simpl.
  - reflexivity.
  - rewrite remove_app, IH. simpl.
    destruct (jsstring_eq_dec k x); simpl.
    + apply app_nil_r.
    + reflexivity.
Qed.

Lemma remove_split (x k : jsstring) : forall l A B,
  remove jsstring_eq_dec x l = A ++ k :: B ->
  exists A' B', l = A' ++ k :: B' /\ forall y, In y A -> In y A'.
Proof.
  induction l as [| y l IH]; intros A B; simpl.
  - destruct A; discriminate.
  - destruct (jsstring_eq_dec x y) as [-> | Hne].
    + intros H. destruct (IH _ _ H) as (A' & B' & -> & Hsub).
      exists (y :: A'), B'. split; [reflexivity |].
      intros z Hz. right. auto.
    + destruct A as [| a A]; simpl; intros [= <- H].
      * exists [], l. split; [reflexivity | intros z []].
      * destruct (IH _ _ H) as (A' & B' & -> & Hsub).
        exists (y :: A'), B'. split; [reflexivity |].
        intros z [<- | Hz]; [now left | right; auto].
Qed.

(** A key that stands in the recency order was last used where the log
    splits, and every key before it in the order was used later. *)
Lemma recency_split : forall log A k B,
  WorkerCache.recency log = A ++ k :: B ->
  exists later earlier,
    log = later ++ k :: earlier /\
    ~ In k later /\
    forall y, In y A -> In y later.
Proof.
  induction log as [| x log IH]; intros A k B; simpl.
  - destruct A; discriminate.
  - destruct A as [| a A]; simpl; intros [= <- H].
    + exists [], log. repeat split; [tauto | intros y []].
    + assert (Hk : In k (remove jsstring_eq_dec x (WorkerCache.recency log)))
        by (rewrite H; apply in_or_app; right; now left).
      apply in_remove in Hk. destruct Hk as [_ Hkx].
      destruct (remove_split _ _ _ _ _ H) as (A' & B' & HA' & Hsub).
      destruct (IH _ _ _ HA') as (later & earlier & -> & HnIn & Hlater).
      exists (x :: later), earlier. repeat split.
      * simpl. intros [E | HIn]; [congruence | tauto].
      * intros y [<- | Hy]; [now left | right; auto].
Qed.

(** ** The cache operations *)

Section CacheFacts.
Context {V : Type}.
Implicit Types (c : WorkerCache.t V) (m s : JSMap.t V) (k key : jsstring) (v : V).

Lemma get_hit key c value :
  NoDup (JSMap.keys (WorkerCache.cache c)) ->
  JSMap.get key (WorkerCache.cache c) = Some value ->
  WorkerCache.get key c =
  (Some value,
   WorkerCache.with_cache c (JSMap.delete key (WorkerCache.cache c) ++ [(key, value)])).
Proof.
  intros Hnd Hget. unfold WorkerCache.get. rewrite Hget.
  rewrite set_absent; [reflexivity |].
  rewrite keys_delete by exact Hnd. apply remove_In.
Qed.

Lemma get_miss key c :
  JSMap.get key (WorkerCache.cache c) = None ->
  WorkerCache.get key c = (None, c).
Proof. intros Hget. unfold WorkerCache.get. rewrite Hget. reflexivity. Qed.

(** What a call of [set] that returns has done. *)
Lemma set_Some fuel key value c c' :
  NoDup (JSMap.keys (WorkerCache.cache c)) ->
  WorkerCache.set fuel key value c = Some c' ->
  let m1 := WorkerCache.unlink key (WorkerCache.cache c) in
  let kept := skipn (List.length m1 - Z.to_nat (WorkerCache.maxSize c - 1)) m1 in
  1 <= WorkerCache.maxSize c /\
  JSMap.size kept < WorkerCache.maxSize c /\
  ~ In key (JSMap.keys kept) /\
  c' = WorkerCache.with_cache c (kept ++ [(key, value)]).
Proof.
  intros Hnd Hset m1 kept. unfold WorkerCache.set in Hset. fold m1 in Hset.
  destruct (WorkerCache.evict fuel (WorkerCache.maxSize c) m1) as [m2 |] eqn:Hev;
    [| discriminate].
  injection Hset as <-.
  apply evict_Some in Hev. destruct Hev as (H1 & Hm2 & Hsz).
  fold kept in Hm2. subst m2.
  assert (Hk : ~ In key (JSMap.keys kept)).
  { unfold kept. rewrite keys_skipn. intros HIn. apply In_skipn in HIn.
    unfold m1 in HIn. rewrite unlink_keys in HIn by exact Hnd.
    revert HIn. apply remove_In. }
  repeat split; [exact H1 | exact Hsz | exact Hk |].
  rewrite set_absent by exact Hk. reflexivity.
Qed.

(** With a maximum of at least one, [set] returns. *)
Lemma set_returns fuel key value c :
  1 <= WorkerCache.maxSize c ->
  (WorkerCache.enough c <= fuel)%nat ->
  exists c', WorkerCache.set fuel key value c = Some c'.
Proof.
  intros H1 Hf. unfold WorkerCache.set.
  destruct (evict_ends fuel (WorkerCache.maxSize c)
              (WorkerCache.unlink key (WorkerCache.cache c)) H1) as [m' ->].
  - pose proof (length_unlink key (WorkerCache.cache c)).
    unfold WorkerCache.enough in Hf. lia.
  - eauto.
Qed.

(** With a maximum below one, [set] never returns. *)
Lemma set_diverges fuel key value c :
  WorkerCache.maxSize c <= 0 -> WorkerCache.set fuel key value c = None.
Proof.
  intros H0. unfold WorkerCache.set. rewrite evict_diverges by exact H0.
  reflexivity.
Qed.

(** What holds of every cache that a run reaches: the maximum is the one
    it was constructed with, no key stands twice, the population is
    within the maximum, and the entries stand in the order of their last
    use, the latest last. *)
Lemma run_invariant (m : Z) ops c log :
  WorkerCache.run m ops c log ->
  WorkerCache.maxSize c = m /\
  NoDup (JSMap.keys (WorkerCache.cache c)) /\
  (0 <= m -> JSMap.size (WorkerCache.cache c) <= m) /\
  exists dead,
    WorkerCache.recency log = rev (JSMap.keys (WorkerCache.cache c)) ++ dead.
Proof.
  induction 1 as [| ops c log o c' used Hrun IH Hstep].
  - simpl. repeat split; [constructor | unfold JSMap.size; simpl; lia |].
    exists []. reflexivity.
  - destruct IH as (Hmax & Hnd & Hsz & dead & Hrec).
    destruct Hstep as [key c value Hget | key c Hget | fuel key value c c' Hset].
    + rewrite (get_hit _ _ _ Hnd Hget). cbn [snd WorkerCache.cache WorkerCache.with_cache
                                               WorkerCache.maxSize].
      pose proof (get_Some_keys _ _ _ Hget) as HIn.
      rewrite keys_app, keys_delete by exact Hnd. cbn [JSMap.keys map fst].
      split; [exact Hmax |]. split; [| split].
      * apply NoDup_snoc; [apply NoDup_remove_key, Hnd | apply remove_In].
      * intros H0. specialize (Hsz H0). unfold JSMap.size in *.
        rewrite length_app. cbn [List.length].
        pose proof (length_delete_present _ _ HIn). lia.
      * exists (remove jsstring_eq_dec key dead).
        cbn [app WorkerCache.recency]. rewrite Hrec, remove_app, remove_rev.
        rewrite rev_app_distr. reflexivity.
    + rewrite (get_miss _ _ Hget). cbn [snd app].
      repeat split; try assumption. exists dead. exact Hrec.
    + pose proof (set_Some _ _ _ _ _ Hnd Hset) as (H1 & Hkept & Hk & ->).
      cbn [WorkerCache.cache WorkerCache.with_cache WorkerCache.maxSize].
      set (m1 := WorkerCache.unlink key (WorkerCache.cache c)) in *.
      set (j := (List.length m1 - Z.to_nat (WorkerCache.maxSize c - 1))%nat) in *.
      assert (Hkeys : JSMap.keys m1
                      = remove jsstring_eq_dec key (JSMap.keys (WorkerCache.cache c)))
        by (apply unlink_keys, Hnd).
      rewrite keys_app, keys_skipn. cbn [JSMap.keys map fst].
      split; [exact Hmax |]. split; [| split].
      * apply NoDup_snoc.
        -- apply NoDup_skipn. fold (JSMap.keys m1). rewrite Hkeys.
           apply NoDup_remove_key, Hnd.
        -- rewrite keys_skipn in Hk. exact Hk.
      * intros _. unfold JSMap.size in *. rewrite length_app. cbn [List.length].
        lia.
      * exists (rev (firstn j (JSMap.keys m1)) ++ remove jsstring_eq_dec key dead).
        cbn [app WorkerCache.recency]. rewrite Hrec, remove_app, remove_rev.
        rewrite <- Hkeys. fold (JSMap.keys m1).
        rewrite rev_app_distr. cbn [rev app].
        rewrite <- (firstn_skipn j (JSMap.keys m1)) at 1.
        rewrite rev_app_distr, <- app_assoc. reflexivity.
Qed.

End CacheFacts.

Section CacheTheorems.
Context {V : Type}.
Implicit Types (c : WorkerCache.t V) (s : JSMap.t V) (k key : jsstring) (v : V).

Lemma length_set key v s :
  (List.length (JSMap.set key v s) <= S (List.length s))%nat.
Proof.
  induction s as [| [k' v'] s IH]; simpl.
  - lia.
  - destruct (jsstring_eq_dec key k'); simpl; lia.
Qed.

(** C3. A cache constructed with a maximum [m] never holds more than [m]
    entries: not between two calls of a run of [get] and [set], and not
    in the middle of a call either. *)
Theorem cache_bound (m : Z) s :
  0 <= m -> WorkerCache.visits m s -> JSMap.size s <= m.
Proof.
  intros H0 Hv.
  destruct Hv as [ops c log Hrun | ops c log key s Hrun HIn
                 | ops c log fuel key value s Hrun HIn];
    destruct (run_invariant _ _ _ _ Hrun) as (Hmax & Hnd & Hsz & _);
    specialize (Hsz H0); unfold JSMap.size in *.
  - exact Hsz.
  - unfold WorkerCache.get_states in HIn.
    destruct (JSMap.get key (WorkerCache.cache c)) as [value |] eqn:Hget;
      [| contradiction].
    pose proof (length_delete_present _ _ (get_Some_keys _ _ _ Hget)) as Hd.
    pose proof (length_set key value (JSMap.delete key (WorkerCache.cache c))) as Hs.
    destruct HIn as [<- | [<- | []]]; lia.
  - unfold WorkerCache.set_states in HIn. rewrite Hmax in HIn.
    pose proof (length_unlink key (WorkerCache.cache c)) as Hu.
    destruct HIn as [<- | HIn]; [lia |].
    apply in_app_or in HIn. destruct HIn as [HIn | HIn].
    + apply evict_states_length in HIn. lia.
    + destruct (WorkerCache.evict fuel m (WorkerCache.unlink key (WorkerCache.cache c)))
        as [m2 |] eqn:Hev; [| contradiction].
      apply evict_Some in Hev. destruct Hev as (_ & _ & Hlt).
      unfold JSMap.size in Hlt.
      pose proof (length_set key value m2) as Hs.
      destruct HIn as [<- | []]. lia.
Qed.

(** C4. In a cache that a run of [get] and [set] has reached, the
    entries stand in the order of their last use by a hit of [get] or by
    a [set], the latest last; and a [set] of a new key on a full cache
    removes exactly the oldest entry, which is the least recently used,
    and leaves room for the one new entry, which it appends. *)
Theorem lru_eviction (m : Z) ops c log :
  WorkerCache.run m ops c log ->
  rev (JSMap.keys (WorkerCache.cache c))
  = firstn (List.length (WorkerCache.cache c)) (WorkerCache.recency log) /\
  forall fuel key value c',
    JSMap.has key (WorkerCache.cache c) = false ->
    m <= JSMap.size (WorkerCache.cache c) ->
    WorkerCache.set fuel key value c = Some c' ->
    exists oldest v0 rest,
      WorkerCache.cache c = (oldest, v0) :: rest /\
      WorkerCache.least_recent log (JSMap.keys (WorkerCache.cache c)) oldest /\
      WorkerCache.cache c' = rest ++ [(key, value)] /\
      JSMap.size rest + 1 = m.
Proof.
  intros Hrun.
  destruct (run_invariant _ _ _ _ Hrun) as (Hmax & Hnd & Hsz & dead & Hrec).
  split.
  - rewrite Hrec.
    replace (List.length (WorkerCache.cache c))
      with (List.length (rev (JSMap.keys (WorkerCache.cache c))) + 0)%nat
      by (rewrite length_rev; unfold JSMap.keys; rewrite length_map; lia).
    rewrite firstn_app_2. simpl. symmetry. apply app_nil_r.
  - intros fuel key value c' Hhas Hfull Hset.
    pose proof (set_Some _ _ _ _ _ Hnd Hset) as (H1 & _ & _ & ->).
    unfold WorkerCache.unlink. rewrite Hhas.
    rewrite Hmax in *. specialize (Hsz ltac:(lia)).
    unfold JSMap.size in *.
    destruct (WorkerCache.cache c) as [| [oldest v0] rest] eqn:Hc;
      cbn [List.length] in *; [lia |].
    exists oldest, v0, rest.
    replace (S (List.length rest) - Z.to_nat (m - 1))%nat with 1%nat by lia.
    repeat split; [now left | | lia].
    cbn [JSMap.keys map fst rev] in Hrec. rewrite <- app_assoc in Hrec.
    destruct (recency_split _ _ _ _ Hrec) as (later & earlier & Hlog & HnIn & Hlater).
    exists later, earlier. repeat split; [exact Hlog | exact HnIn |].
    intros k' HIn Hne. cbn [JSMap.keys map fst] in HIn.
    destruct HIn as [E | HIn]; [congruence |].
    apply Hlater. rewrite <- in_rev. exact HIn.
Qed.

(** C10. With a maximum of at least one, [set(k, v)] returns, the key it
    has set is in the cache, at the end of the most recently used, and a
    [get(k)] right after returns [v]. *)
Theorem set_then_get (m : Z) ops c log key value :
  1 <= m ->
  WorkerCache.run m ops c log ->
  exists c' older,
    (forall fuel, (WorkerCache.enough c <= fuel)%nat ->
                  WorkerCache.set fuel key value c = Some c') /\
    WorkerCache.cache c' = older ++ [(key, value)] /\
    ~ In key (JSMap.keys older) /\
    fst (WorkerCache.get key c') = Some value.
Proof.
  intros H1 Hrun.
  destruct (run_invariant _ _ _ _ Hrun) as (Hmax & Hnd & _ & _).
  destruct (set_returns (WorkerCache.enough c) key value c) as [c' Hc'];
    [lia | lia |].
  pose proof (set_Some _ _ _ _ _ Hnd Hc') as (_ & _ & Hk & Heq).
  exists c'. eexists. split; [| split; [| split]].
  - intros fuel Hf.
    destruct (set_returns fuel key value c) as [c2 Hc2]; [lia | exact Hf |].
    pose proof (set_Some _ _ _ _ _ Hnd Hc2) as (_ & _ & _ & Heq2).
    rewrite Hc2, Heq2, Heq. reflexivity.
  - rewrite Heq. reflexivity.
  - exact Hk.
  - unfold WorkerCache.get. rewrite Heq. cbn [WorkerCache.cache WorkerCache.with_cache].
    rewrite get_app_absent by exact Hk. simpl.
    destruct (jsstring_eq_dec key key); [reflexivity | congruence].
Qed.

End CacheTheorems.

(** ** Runs, computed *)

Section ExecFacts.
Context {V : Type}.

Lemma exec_run (m : Z) : forall ops (c : WorkerCache.t V) log,
  WorkerCache.exec m ops = Some (c, log) -> WorkerCache.run m ops c log.
Proof.
  induction ops as [| o ops IH]; intros c log; simpl.
  - intros [= <- <-]. constructor.
  - destruct (WorkerCache.exec m ops) as [[c0 log0] |]; [| discriminate].
    specialize (IH c0 log0 eq_refl).
    destruct o as [key | key value].
    + intros [= <- <-]. unfold JSMap.has.
      destruct (JSMap.get key (WorkerCache.cache c0)) as [value |] eqn:Hget.
      * apply (WorkerCache.run_step m ops c0 log0 _ _ [key] IH).
        apply (WorkerCache.step_get_hit key c0 value Hget).
      * apply (WorkerCache.run_step m ops c0 log0 _ _ [] IH).
        apply (WorkerCache.step_get_miss key c0 Hget).
    + destruct (WorkerCache.set (WorkerCache.enough c0) key value c0)
        as [c1 |] eqn:Hset; [| discriminate].
      intros [= <- <-].
      apply (WorkerCache.run_step m ops c0 log0 _ _ [key] IH).
      apply (WorkerCache.step_set _ key value c0 c1 Hset).
Qed.

(** With a maximum of at least one every sequence of operations runs to
    its end. *)
Lemma exec_total (m : Z) : 1 <= m ->
  forall ops, exists (c : WorkerCache.t V) log, WorkerCache.exec m ops = Some (c, log).
Proof.
  intros H1. induction ops as [| o ops IH]; simpl.
  - eauto.
  - destruct IH as (c & log & Hex). rewrite Hex.
    destruct o as [key | key value]; [eauto |].
    destruct (run_invariant _ _ _ _ (exec_run m ops c log Hex)) as (Hmax & _).
    destruct (set_returns (WorkerCache.enough c) key value c) as [c' ->];
      [lia | lia | eauto].
Qed.

End ExecFacts.

(** A cache of two, after [set a], [set b], [set c]: [a] is gone. *)
Lemma cache_bound_witness :
  JSMap.size [(key_b, 2); (key_c, 3)] <= 2.
Proof.
  apply (cache_bound 2); [lia |].
  apply (WorkerCache.visits_rest 2
           [WorkerCache.OpSet key_c 3; WorkerCache.OpSet key_b 2;
            WorkerCache.OpSet key_a 1]
           (WorkerCache.mk [(key_b, 2); (key_c, 3)] 2)
           [key_c; key_b; key_a]).
  apply exec_run. reflexivity.
Defined.

(** A cache of two, after [set a], [set b], [get a]: a [set c] removes
    [b], not [a]. *)
Lemma lru_eviction_witness :
  exists oldest v0 rest,
    [(key_b, 2); (key_a, 1)] = (oldest, v0) :: rest /\
    WorkerCache.least_recent [key_a; key_b; key_a] [key_b; key_a] oldest /\
    [(key_a, 1); (key_c, 3)] = rest ++ [(key_c, 3)] /\
    JSMap.size rest + 1 = 2.
Proof.
  assert (Hrun : WorkerCache.run 2
                   [WorkerCache.OpGet key_a; WorkerCache.OpSet key_b 2;
                    WorkerCache.OpSet key_a 1]
                   (WorkerCache.mk [(key_b, 2); (key_a, 1)] 2)
                   [key_a; key_b; key_a])
    by (apply exec_run; reflexivity).
  apply (proj2 (lru_eviction _ _ _ _ Hrun)
           3%nat key_c 3 (WorkerCache.mk [(key_a, 1); (key_c, 3)] 2)).
  - reflexivity.
  - vm_compute. discriminate.
  - reflexivity.
Defined.

(** A new cache of one: [set a] returns and [get a] finds the value. *)
Lemma set_then_get_witness :
  exists c' older,
    (forall fuel, (1 <= fuel)%nat ->
                  WorkerCache.set fuel key_a 1 (WorkerCache.new 1) = Some c') /\
    WorkerCache.cache c' = older ++ [(key_a, 1)] /\
    ~ In key_a (JSMap.keys older) /\
    fst (WorkerCache.get key_a c') = Some 1.
Proof.
  apply (set_then_get 1 [] (WorkerCache.new 1) [] key_a 1).
  - lia.
  - constructor.
Defined.

(** ** Collisions of the hash *)

(** C9. [simpleHash] writes a signed 32-bit integer in base 36, so it
    takes at most 2^32 values; two distinct code strings have the same
    hash, and with it the same cache key under every account. *)
Theorem simpleHash_collides :
  (forall str, int32 (hash_code str) /\
               simpleHash str = toString36 (hash_code str)) /\
  (forall str, exists n, 0 <= n < 2 ^ 32 /\
                         simpleHash str = toString36 (n - 2 ^ 31)) /\
  (exists code code',
     code <> code' /\
     simpleHash code = simpleHash code' /\
     forall accountId, cacheKey accountId code = cacheKey accountId code').
Proof.
  split; [| split].
  - intros str. split; [apply hash_code_range | reflexivity].
  - intros str. exists (hash_code str + 2 ^ 31).
    pose proof (hash_code_range str) as H. unfold int32 in H.
    split; [lia |]. unfold simpleHash. f_equal. lia.
  - exists code_Aa, code_BB.
    split; [exact Aa_BB_distinct |]. split; [exact Aa_BB_collide |].
    intros accountId. apply cacheKey_of_hash, Aa_BB_collide.
Qed.

(** ** What [get] and [set] leave behind *)

Section AfterFacts.
Context {V : Type}.
Implicit Types (c : WorkerCache.t V) (k key : jsstring) (v : V).

(** A cache is in order when no key stands twice in its map, as in every
    cache that the operations have made. *)
Lemma after_get_hit key c v :
  NoDup (JSMap.keys (WorkerCache.cache c)) ->
  JSMap.get key (WorkerCache.cache c) = Some v ->
  exists c',
    WorkerCache.get key c = (Some v, c') /\
    WorkerCache.maxSize c' = WorkerCache.maxSize c /\
    NoDup (JSMap.keys (WorkerCache.cache c')) /\
    JSMap.get key (WorkerCache.cache c') = Some v /\
    forall k', k' <> key ->
      JSMap.get k' (WorkerCache.cache c) = None ->
      JSMap.get k' (WorkerCache.cache c') = None.
Proof.
  intros Hnd Hget. eexists. split; [apply get_hit; assumption |].
  cbn [WorkerCache.cache WorkerCache.with_cache WorkerCache.maxSize].
  assert (Hk : ~ In key (JSMap.keys (JSMap.delete key (WorkerCache.cache c))))
    by (rewrite keys_delete by exact Hnd; apply remove_In).
  split; [reflexivity |]. split; [| split].
  - rewrite keys_app, keys_delete by exact Hnd. cbn [JSMap.keys map fst].
    apply NoDup_snoc; [apply NoDup_remove_key, Hnd | apply remove_In].
  - rewrite get_app_absent by exact Hk. simpl.
    destruct (jsstring_eq_dec key key); [reflexivity | congruence].
  - intros k' Hne Hnone. apply get_None_keys. apply get_None_keys in Hnone.
    rewrite keys_app, keys_delete by exact Hnd. cbn [JSMap.keys map fst].
    rewrite in_app_iff. intros [HIn | [E | []]]; [| congruence].
    apply in_remove in HIn. tauto.
Qed.

Lemma after_set fuel key v c c' :
  NoDup (JSMap.keys (WorkerCache.cache c)) ->
  WorkerCache.set fuel key v c = Some c' ->
  WorkerCache.maxSize c' = WorkerCache.maxSize c /\
  NoDup (JSMap.keys (WorkerCache.cache c')) /\
  JSMap.get key (WorkerCache.cache c') = Some v /\
  forall k', k' <> key ->
    JSMap.get k' (WorkerCache.cache c) = None ->
    JSMap.get k' (WorkerCache.cache c') = None.
Proof.
  intros Hnd Hset.
  pose proof (set_Some _ _ _ _ _ Hnd Hset) as (_ & _ & Hk & ->).
  cbn [WorkerCache.cache WorkerCache.with_cache WorkerCache.maxSize].
  set (m1 := WorkerCache.unlink key (WorkerCache.cache c)) in *.
  set (j := (List.length m1 - Z.to_nat (WorkerCache.maxSize c - 1))%nat) in *.
  assert (Hkeys : JSMap.keys m1
                  = remove jsstring_eq_dec key (JSMap.keys (WorkerCache.cache c)))
    by (apply unlink_keys, Hnd).
  split; [reflexivity |]. split; [| split].
  - rewrite keys_app. cbn [JSMap.keys map fst]. apply NoDup_snoc; [| exact Hk].
    fold (JSMap.keys (skipn j m1)). rewrite keys_skipn. apply NoDup_skipn.
    rewrite Hkeys. apply NoDup_remove_key, Hnd.
  - rewrite get_app_absent by exact Hk. simpl.
    destruct (jsstring_eq_dec key key); [reflexivity | congruence].
  - intros k' Hne Hnone. apply get_None_keys. apply get_None_keys in Hnone.
    rewrite keys_app, keys_skipn, Hkeys. cbn [JSMap.keys map fst].
    rewrite in_app_iff. intros [HIn | [E | []]]; [| congruence].
    apply In_skipn, in_remove in HIn. tauto.
Qed.

End AfterFacts.

(** ** The executors *)

Section ExecutorFacts.
Variable env : Executor.Env.
Variable engine : Engine.

Local Abbreviation W := (Executor.Worker (Executor.LOADER env)).

Implicit Types (wc : WorkerCache.t W) (key workerId : jsstring)
  (def : WorkerCode) (args : list jsval).

(** The three ways through [execute]: a hit, a miss on which the loader
    throws, a miss on which it builds. *)
Lemma execute_cases wc key workerId def args call :
  NoDup (JSMap.keys (WorkerCache.cache wc)) ->
  Executor.execute env engine wc key workerId def args = Some call ->
  (exists worker,
     JSMap.get key (WorkerCache.cache wc) = Some worker /\
     Executor.outcome call = Executor.invoke env engine worker args /\
     Executor.effects call = [Executor.CallEvaluate worker args] /\
     Executor.installed env wc (Executor.cache_after call) key worker) \/
  (JSMap.get key (WorkerCache.cache wc) = None /\
   exists e,
     Executor.LOADER_get (Executor.LOADER env) workerId def = Throw e /\
     Executor.outcome call = Throw e /\
     Executor.effects call = [Executor.CallLoaderGet workerId def] /\
     Executor.cache_after call = wc) \/
  (JSMap.get key (WorkerCache.cache wc) = None /\
   exists worker,
     Executor.LOADER_get (Executor.LOADER env) workerId def = Return worker /\
     Executor.outcome call = Executor.invoke env engine worker args /\
     Executor.effects call
     = [Executor.CallLoaderGet workerId def; Executor.CallEvaluate worker args] /\
     Executor.installed env wc (Executor.cache_after call) key worker).
Proof.
  intros Hnd. unfold Executor.execute, Executor.cached_worker.
  destruct (JSMap.get key (WorkerCache.cache wc)) as [worker |] eqn:Hget.
  - destruct (after_get_hit key wc worker Hnd Hget) as (c' & -> & Hpost).
    intros [= <-]. left. exists worker. cbn. repeat split; try apply Hpost.
  - rewrite (get_miss key wc Hget).
    destruct (Executor.LOADER_get (Executor.LOADER env) workerId def)
      as [worker | e] eqn:Hload.
    + destruct (WorkerCache.set (WorkerCache.enough wc) key worker wc)
        as [c2 |] eqn:Hset; [| discriminate].
      intros [= <-]. right. right. split; [reflexivity |].
      exists worker. cbn. repeat split; try apply (after_set _ _ _ _ _ Hnd Hset).
    + intros [= <-]. right. left. split; [reflexivity |].
      exists e. cbn. repeat split.
Qed.

(** A call of an executor returns when the maximum of its cache is at
    least one, as are 20 and 5. *)
Lemma execute_returns wc key workerId def args :
  1 <= WorkerCache.maxSize wc ->
  exists call, Executor.execute env engine wc key workerId def args = Some call.
Proof.
  intros H1. unfold Executor.execute, Executor.cached_worker.
  destruct (WorkerCache.get key wc) as [[worker |] c1] eqn:Hget; [eauto |].
  assert (c1 = wc) as ->.
  { unfold WorkerCache.get in Hget.
    destruct (JSMap.get key (WorkerCache.cache wc)); congruence. }
  destruct (Executor.LOADER_get (Executor.LOADER env) workerId def); [| eauto].
  destruct (set_returns (WorkerCache.enough wc) key a wc) as [c2 ->];
    [exact H1 | lia | eauto].
Qed.

(** A hit: the cached worker is used as it is. *)
Lemma execute_hit wc key workerId def args worker :
  NoDup (JSMap.keys (WorkerCache.cache wc)) ->
  JSMap.get key (WorkerCache.cache wc) = Some worker ->
  exists call,
    Executor.execute env engine wc key workerId def args = Some call /\
    Executor.outcome call = Executor.invoke env engine worker args /\
    Executor.effects call = [Executor.CallEvaluate worker args] /\
    Executor.installed env wc (Executor.cache_after call) key worker.
Proof.
  intros Hnd Hget. unfold Executor.execute, Executor.cached_worker.
  destruct (after_get_hit key wc worker Hnd Hget) as (c' & -> & Hpost).
  eexists. split; [reflexivity |]. cbn. repeat split; try apply Hpost.
Qed.

End ExecutorFacts.

Section ServedFacts.
Variable env : Executor.Env.
Variable engine : Engine.

Local Abbreviation W := (Executor.Worker (Executor.LOADER env)).

(** A call of an executor is a [get], and on a miss that builds a
    worker a [set], of its worker cache. *)
Lemma execute_run (m : Z) ops (wc : WorkerCache.t W) log key workerId def args call :
  WorkerCache.run m ops wc log ->
  Executor.execute env engine wc key workerId def args = Some call ->
  exists ops' log', WorkerCache.run m ops' (Executor.cache_after call) log'.
Proof.
  intros Hrun. unfold Executor.execute, Executor.cached_worker.
  destruct (JSMap.get key (WorkerCache.cache wc)) as [worker |] eqn:Hget.
  - pose proof (WorkerCache.run_step m ops wc log _ _ _ Hrun
                  (WorkerCache.step_get_hit key wc worker Hget)) as Hrun'.
    unfold WorkerCache.get in *. rewrite Hget in *. cbn [snd] in Hrun'.
    intros [= <-]. cbn. eauto.
  - rewrite (get_miss key wc Hget).
    destruct (Executor.LOADER_get (Executor.LOADER env) workerId def)
      as [worker | e].
    + destruct (WorkerCache.set (WorkerCache.enough wc) key worker wc)
        as [c2 |] eqn:Hset; [| discriminate].
      intros [= <-]. cbn.
      pose proof (WorkerCache.run_step m ops wc log _ _ _ Hrun
                    (WorkerCache.step_set _ key worker wc c2 Hset)).
      eauto.
    + intros [= <-]. cbn. eauto.
Qed.

Lemma code_served_run (wc : WorkerCache.t W) :
  Executor.code_served env engine wc ->
  exists ops log, WorkerCache.run 20 ops wc log.
Proof.
  induction 1 as [| wc code accountId apiToken call _ (ops & log & Hrun) Hcall].
  - exists [], []. constructor.
  - unfold Executor.createCodeExecutor in Hcall.
    apply (execute_run _ _ _ _ _ _ _ _ _ Hrun Hcall).
Qed.

Lemma search_served_run specJson (wc : WorkerCache.t W) :
  Executor.search_served env engine specJson wc ->
  exists ops log, WorkerCache.run 5 ops wc log.
Proof.
  induction 1 as [| wc code call _ (ops & log & Hrun) Hcall].
  - exists [], []. constructor.
  - unfold Executor.createSearchExecutor in Hcall.
    apply (execute_run _ _ _ _ _ _ _ _ _ Hrun Hcall).
Qed.

(** The worker cache of the API executor never holds more than 20
    workers, that of the search executor never more than 5; no key
    stands twice in them, and every call on them returns. *)
Lemma code_served_bound (wc : WorkerCache.t W) :
  Executor.code_served env engine wc ->
  JSMap.size (WorkerCache.cache wc) <= 20 /\
  NoDup (JSMap.keys (WorkerCache.cache wc)) /\
  forall code accountId apiToken,
    exists call,
      Executor.createCodeExecutor env engine wc code accountId apiToken = Some call.
Proof.
  intros Hs. destruct (code_served_run wc Hs) as (ops & log & Hrun).
  destruct (run_invariant _ _ _ _ Hrun) as (Hmax & Hnd & Hsz & _).
  split; [apply Hsz; lia |]. split; [exact Hnd |].
  intros code accountId apiToken. apply execute_returns. lia.
Qed.

Lemma search_served_bound specJson (wc : WorkerCache.t W) :
  Executor.search_served env engine specJson wc ->
  JSMap.size (WorkerCache.cache wc) <= 5 /\
  NoDup (JSMap.keys (WorkerCache.cache wc)) /\
  forall code,
    exists call,
      Executor.createSearchExecutor env engine specJson wc code = Some call.
Proof.
  intros Hs. destruct (search_served_run specJson wc Hs) as (ops & log & Hrun).
  destruct (run_invariant _ _ _ _ Hrun) as (Hmax & Hnd & Hsz & _).
  split; [apply Hsz; lia |]. split; [exact Hnd |].
  intros code. apply execute_returns. lia.
Qed.

(** A failure of [evaluate] is a failure of the call, not of the
    worker: the worker stays in the cache. *)
Lemma invocation_fault_keeps_worker (wc : WorkerCache.t W) key workerId def args call worker e :
  NoDup (JSMap.keys (WorkerCache.cache wc)) ->
  Executor.execute env engine wc key workerId def args = Some call ->
  In (Executor.CallEvaluate worker args) (Executor.effects call) ->
  Executor.entrypoint_evaluate (Executor.LOADER env) worker args = Throw e ->
  Executor.outcome call = Throw e /\
  JSMap.get key (WorkerCache.cache (Executor.cache_after call)) = Some worker.
Proof.
  intros Hnd Hcall HIn Hev.
  destruct (execute_cases _ _ _ _ _ _ _ _ Hnd Hcall)
    as [(w & _ & Hout & Heff & Hinst) | [(_ & e' & _ & _ & Heff & _)
       | (_ & w & _ & Hout & Heff & Hinst)]];
    rewrite Heff in HIn; cbn in HIn.
  - destruct HIn as [[= <-] | []]. rewrite Hout. unfold Executor.invoke.
    rewrite Hev. split; [reflexivity | apply Hinst].
  - destruct HIn as [[=] | []].
  - destruct HIn as [[=] | [[= <-] | []]]. rewrite Hout. unfold Executor.invoke.
    rewrite Hev. split; [reflexivity | apply Hinst].
Qed.

End ServedFacts.

(** ** Where the cached workers come from *)

Section EntryFacts.
Context {V : Type}.
Implicit Types (c : WorkerCache.t V) (m : JSMap.t V) (k key : jsstring) (v : V).

Lemma get_In k v m : JSMap.get k m = Some v -> In (k, v) m.
Proof.
  induction m as [| [k' v'] m IH]; simpl; [discriminate |].
  destruct (jsstring_eq_dec k k') as [-> | Hne].
  - intros [= ->]. now left.
  - intros H. right. auto.
Qed.

Lemma In_get k v m : NoDup (JSMap.keys m) -> In (k, v) m -> JSMap.get k m = Some v.
Proof.
  induction m as [| [k' v'] m IH]; simpl; intros Hnd HIn; [contradiction |].
  inversion Hnd as [| ? ? HnIn Hnd']; subst.
  destruct (jsstring_eq_dec k k') as [-> | Hne].
  - destruct HIn as [[= ->] | HIn]; [reflexivity |].
    exfalso. apply HnIn. apply (in_map fst) in HIn. exact HIn.
  - destruct HIn as [[= -> _] | HIn]; [congruence | auto].
Qed.

Lemma In_delete key m p : In p (JSMap.delete key m) -> In p m.
Proof.
  induction m as [| [k' v'] m IH]; simpl; [tauto |].
  destruct (jsstring_eq_dec key k'); simpl; [tauto |].
  intros [<- | HIn]; [now left | right; auto].
Qed.

Lemma In_unlink key m p : In p (WorkerCache.unlink key m) -> In p m.
Proof.
  unfold WorkerCache.unlink. destruct (JSMap.has key m); [apply In_delete | tauto].
Qed.

(** [get] and [set] bring no entry in but the one they are called for. *)
Lemma get_hit_entries key c v k' v' :
  NoDup (JSMap.keys (WorkerCache.cache c)) ->
  JSMap.get key (WorkerCache.cache c) = Some v ->
  JSMap.get k' (WorkerCache.cache (snd (WorkerCache.get key c))) = Some v' ->
  JSMap.get k' (WorkerCache.cache c) = Some v'.
Proof.
  intros Hnd Hget. rewrite (get_hit _ _ _ Hnd Hget).
  cbn [snd WorkerCache.cache WorkerCache.with_cache]. intros H.
  apply get_In, in_app_or in H. apply (In_get _ _ _ Hnd).
  destruct H as [H | [[= -> ->] | []]].
  - apply In_delete in H. exact H.
  - apply get_In. exact Hget.
Qed.

Lemma set_entries fuel key v c c' k' v' :
  NoDup (JSMap.keys (WorkerCache.cache c)) ->
  WorkerCache.set fuel key v c = Some c' ->
  JSMap.get k' (WorkerCache.cache c') = Some v' ->
  (k' = key /\ v' = v) \/ JSMap.get k' (WorkerCache.cache c) = Some v'.
Proof.
  intros Hnd Hset.
  pose proof (set_Some _ _ _ _ _ Hnd Hset) as (_ & _ & _ & ->).
  cbn [WorkerCache.cache WorkerCache.with_cache]. intros H.
  apply get_In, in_app_or in H.
  destruct H as [H | [[= -> ->] | []]]; [right | left; split; reflexivity].
  apply (In_get _ _ _ Hnd). apply In_skipn, In_unlink in H. exact H.
Qed.

End EntryFacts.

Section BuiltForKey.
Variable env : Executor.Env.
Variable engine : Engine.

Local Abbreviation W := (Executor.Worker (Executor.LOADER env)).

Lemma execute_entries (wc : WorkerCache.t W) key workerId def args call k' w' :
  NoDup (JSMap.keys (WorkerCache.cache wc)) ->
  Executor.execute env engine wc key workerId def args = Some call ->
  JSMap.get k' (WorkerCache.cache (Executor.cache_after call)) = Some w' ->
  (k' = key /\ Executor.LOADER_get (Executor.LOADER env) workerId def = Return w') \/
  JSMap.get k' (WorkerCache.cache wc) = Some w'.
Proof.
  intros Hnd. unfold Executor.execute, Executor.cached_worker.
  destruct (JSMap.get key (WorkerCache.cache wc)) as [worker |] eqn:Hget.
  - pose proof (get_hit_entries key wc worker k' w' Hnd Hget) as Hent.
    destruct (WorkerCache.get key wc) as [[w |] c1] eqn:Hg;
      unfold WorkerCache.get in Hg; rewrite Hget in Hg; [| discriminate].
    injection Hg as <- <-. intros [= <-]. cbn. right. auto.
  - rewrite (get_miss key wc Hget).
    destruct (Executor.LOADER_get (Executor.LOADER env) workerId def)
      as [worker | e].
    + destruct (WorkerCache.set (WorkerCache.enough wc) key worker wc)
        as [c2 |] eqn:Hset; [| discriminate].
      intros [= <-]. cbn. intros H.
      destruct (set_entries _ _ _ _ _ _ _ Hnd Hset H) as [[-> ->] | H'];
        [left; split; reflexivity | right; exact H'].
    + intros [= <-]. cbn. right. assumption.
Qed.

(** Every worker in the cache of the API executor was built by the
    loader from the definition of a code that has the key of the entry. *)
Lemma code_served_entries (wc : WorkerCache.t W) :
  Executor.code_served env engine wc ->
  forall key worker,
    JSMap.get key (WorkerCache.cache wc) = Some worker ->
    exists code accountId,
      key = cacheKey accountId code /\
      Executor.LOADER_get (Executor.LOADER env) (lit "cloudflare-api-" ++ key)
        (Executor.code_definition env code accountId) = Return worker.
Proof.
  induction 1 as [| wc code accountId apiToken call Hs IH Hcall];
    intros key worker Hget.
  - discriminate.
  - destruct (code_served_bound env engine wc Hs) as (_ & Hnd & _).
    unfold Executor.createCodeExecutor in Hcall. cbv zeta in Hcall.
    destruct (execute_entries _ _ _ _ _ _ _ _ Hnd Hcall Hget) as [[-> Hload] | Hold].
    + exists code, accountId. split; [reflexivity | exact Hload].
    + apply IH. exact Hold.
Qed.

End BuiltForKey.

(** ** The sandbox definition and its code *)

Lemma code_worker_js_injective (apiBase accountId code code' : jsstring) :
  code_worker_js apiBase accountId code = code_worker_js apiBase accountId code' ->
  code = code'.
Proof.
  unfold code_worker_js. intros H.
  repeat apply app_inv_head in H.
  apply app_inv_tail in H. exact H.
Qed.

Lemma worker_code_injective (js js' : jsstring) :
  worker_code js = worker_code js' -> js = js'.
Proof.
  intros H.
  apply (f_equal (fun d => match modules d with
                           | [(_, text)] => text
                           | _ => []
                           end)) in H.
  exact H.
Qed.

Lemma code_definition_injective env (accountId code code' : jsstring) :
  Executor.code_definition env code accountId
  = Executor.code_definition env code' accountId ->
  code = code'.
Proof.
  unfold Executor.code_definition. intros H.
  apply worker_code_injective, code_worker_js_injective in H. exact H.
Qed.

Section ExecutorTheorems.
Variable env : Executor.Env.
Variable engine : Engine.

Local Abbreviation W := (Executor.Worker (Executor.LOADER env)).

Implicit Types (wc : WorkerCache.t W) (code accountId apiToken : jsstring).

(** On the API executor: once a request has a worker under its key,
    every request of the same account whose code has the same hash is
    served by that worker, without a call of the loader; a request
    under another key that was not cached goes to the loader with its
    own definition. *)
Lemma code_found_by_key wc code accountId apiToken call worker :
  NoDup (JSMap.keys (WorkerCache.cache wc)) ->
  Executor.createCodeExecutor env engine wc code accountId apiToken = Some call ->
  In (Executor.CallEvaluate worker [JStr apiToken]) (Executor.effects call) ->
  (forall code' apiToken',
     simpleHash code' = simpleHash code ->
     exists call',
       Executor.createCodeExecutor env engine (Executor.cache_after call)
         code' accountId apiToken' = Some call' /\
       Executor.effects call' = [Executor.CallEvaluate worker [JStr apiToken']]) /\
  (forall code' accountId' apiToken' call',
     cacheKey accountId' code' <> cacheKey accountId code ->
     JSMap.get (cacheKey accountId' code') (WorkerCache.cache wc) = None ->
     Executor.createCodeExecutor env engine (Executor.cache_after call)
       code' accountId' apiToken' = Some call' ->
     exists rest,
       Executor.effects call'
       = Executor.CallLoaderGet (lit "cloudflare-api-" ++ cacheKey accountId' code')
           (Executor.code_definition env code' accountId') :: rest).
Proof.
  intros Hnd Hcall Hev. unfold Executor.createCodeExecutor in *. cbv zeta in *.
  fold (cacheKey accountId code) in Hcall.
  assert (Hinst : Executor.installed env wc (Executor.cache_after call)
                    (cacheKey accountId code) worker).
  { destruct (execute_cases _ _ _ _ _ _ _ _ Hnd Hcall)
      as [(w & _ & _ & Heff & Hinst) | [(_ & e & _ & _ & Heff & _)
         | (_ & w & _ & _ & Heff & Hinst)]];
      rewrite Heff in Hev; simpl in Hev.
    - destruct Hev as [[= <-] | []]. exact Hinst.
    - destruct Hev as [[=] | []].
    - destruct Hev as [[=] | [[= <-] | []]]. exact Hinst. }
  destruct Hinst as (Hmax & Hnd' & Hget & Hother).
  split.
  - intros code' apiToken' Hhash. rewrite Hhash.
    fold (cacheKey accountId code).
    destruct (execute_hit env engine (Executor.cache_after call)
                (cacheKey accountId code)
                (lit "cloudflare-api-" ++ cacheKey accountId code)
                (Executor.code_definition env code' accountId)
                [JStr apiToken'] worker Hnd' Hget)
      as (call' & Hcall' & _ & Heff & _).
    exists call'. split; assumption.
  - intros code' accountId' apiToken' call' Hne Hnone Hcall'.
    fold (cacheKey accountId' code') in Hcall'.
    specialize (Hother _ Hne Hnone).
    destruct (execute_cases _ _ _ _ _ _ _ _ Hnd' Hcall')
      as [(w & Hhit & _) | [(_ & e & _ & _ & Heff & _)
         | (_ & w & _ & _ & Heff & _)]].
    + congruence.
    + rewrite Heff. eauto.
    + rewrite Heff. eauto.
Qed.

(** The same on the search executor, whose key is the hash alone. *)
Lemma search_found_by_key specJson wc code call worker :
  NoDup (JSMap.keys (WorkerCache.cache wc)) ->
  Executor.createSearchExecutor env engine specJson wc code = Some call ->
  In (Executor.CallEvaluate worker []) (Executor.effects call) ->
  (forall code',
     simpleHash code' = simpleHash code ->
     exists call',
       Executor.createSearchExecutor env engine specJson
         (Executor.cache_after call) code' = Some call' /\
       Executor.effects call' = [Executor.CallEvaluate worker []]) /\
  (forall code' call',
     simpleHash code' <> simpleHash code ->
     JSMap.get (simpleHash code') (WorkerCache.cache wc) = None ->
     Executor.createSearchExecutor env engine specJson
       (Executor.cache_after call) code' = Some call' ->
     exists rest,
       Executor.effects call'
       = Executor.CallLoaderGet (lit "cloudflare-search-" ++ simpleHash code')
           (worker_code (search_worker_js specJson code')) :: rest).
Proof.
  intros Hnd Hcall Hev. unfold Executor.createSearchExecutor in *. cbv zeta in *.
  assert (Hinst : Executor.installed env wc (Executor.cache_after call)
                    (simpleHash code) worker).
  { destruct (execute_cases _ _ _ _ _ _ _ _ Hnd Hcall)
      as [(w & _ & _ & Heff & Hinst) | [(_ & e & _ & _ & Heff & _)
         | (_ & w & _ & _ & Heff & Hinst)]];
      rewrite Heff in Hev; simpl in Hev.
    - destruct Hev as [[= <-] | []]. exact Hinst.
    - destruct Hev as [[=] | []].
    - destruct Hev as [[=] | [[= <-] | []]]. exact Hinst. }
  destruct Hinst as (Hmax & Hnd' & Hget & Hother).
  split.
  - intros code' Hhash. rewrite Hhash.
    destruct (execute_hit env engine (Executor.cache_after call)
                (simpleHash code)
                (lit "cloudflare-search-" ++ simpleHash code)
                (worker_code (search_worker_js specJson code'))
                [] worker Hnd' Hget)
      as (call' & Hcall' & _ & Heff & _).
    exists call'. split; assumption.
  - intros code' call' Hne Hnone Hcall'.
    specialize (Hother _ Hne Hnone).
    destruct (execute_cases _ _ _ _ _ _ _ _ Hnd' Hcall')
      as [(w & Hhit & _) | [(_ & e & _ & _ & Heff & _)
         | (_ & w & _ & _ & Heff & _)]].
    + congruence.
    + rewrite Heff. eauto.
    + rewrite Heff. eauto.
Qed.

(** C1, as the code has it. In both executors a cached sandbox is found
    by the derived key alone and its source is not compared with the
    code of the request: once a request has a worker under its key,
    every request with the same key (the same account and a code with
    the same hash) is served by that worker, without a call of the
    loader, whatever its code; a request under another key that was not
    cached goes to the loader with the definition of its own code. *)
Theorem sandbox_found_by_key :
  (forall wc code accountId apiToken call worker,
     NoDup (JSMap.keys (WorkerCache.cache wc)) ->
     Executor.createCodeExecutor env engine wc code accountId apiToken = Some call ->
     In (Executor.CallEvaluate worker [JStr apiToken]) (Executor.effects call) ->
     (forall code' apiToken',
        simpleHash code' = simpleHash code ->
        exists call',
          Executor.createCodeExecutor env engine (Executor.cache_after call)
            code' accountId apiToken' = Some call' /\
          Executor.effects call' = [Executor.CallEvaluate worker [JStr apiToken']]) /\
     (forall code' accountId' apiToken' call',
        cacheKey accountId' code' <> cacheKey accountId code ->
        JSMap.get (cacheKey accountId' code') (WorkerCache.cache wc) = None ->
        Executor.createCodeExecutor env engine (Executor.cache_after call)
          code' accountId' apiToken' = Some call' ->
        exists rest,
          Executor.effects call'
          = Executor.CallLoaderGet
              (lit "cloudflare-api-" ++ cacheKey accountId' code')
              (Executor.code_definition env code' accountId') :: rest)) /\
  (forall specJson wc code call worker,
     NoDup (JSMap.keys (WorkerCache.cache wc)) ->
     Executor.createSearchExecutor env engine specJson wc code = Some call ->
     In (Executor.CallEvaluate worker []) (Executor.effects call) ->
     (forall code',
        simpleHash code' = simpleHash code ->
        exists call',
          Executor.createSearchExecutor env engine specJson
            (Executor.cache_after call) code' = Some call' /\
          Executor.effects call' = [Executor.CallEvaluate worker []]) /\
     (forall code' call',
        simpleHash code' <> simpleHash code ->
        JSMap.get (simpleHash code') (WorkerCache.cache wc) = None ->
        Executor.createSearchExecutor env engine specJson
          (Executor.cache_after call) code' = Some call' ->
        exists rest,
          Executor.effects call'
          = Executor.CallLoaderGet (lit "cloudflare-search-" ++ simpleHash code')
              (worker_code (search_worker_js specJson code')) :: rest)).
Proof.
  split.
  - intros wc code accountId apiToken call worker. apply code_found_by_key.
  - intros specJson wc code call worker. apply search_found_by_key.
Qed.

End ExecutorTheorems.

Lemma first_call_Aa :
  Executor.createCodeExecutor example_env example_engine
    (Executor.code_cache example_env) code_Aa account token_1
  = Some call_Aa.
Proof. vm_compute. reflexivity. Qed.

(** C1 does not hold as stated: [code_Aa] and [code_BB] differ and have
    one hash; after a request for [code_Aa], a request for [code_BB] of
    the same account hits the cache, makes no call of the loader, and
    evaluates the worker whose source embeds [code_Aa]. *)
Lemma collision_shares_sandbox :
  exists call_BB,
    code_Aa <> code_BB /\
    Executor.createCodeExecutor example_env example_engine
      (Executor.code_cache example_env) code_Aa account token_1
    = Some call_Aa /\
    Executor.createCodeExecutor example_env example_engine
      (Executor.cache_after call_Aa) code_BB account token_1
    = Some call_BB /\
    Executor.effects call_BB
    = [Executor.CallEvaluate (env := example_env) worker_Aa [JStr token_1]] /\
    snd worker_Aa = Executor.code_definition example_env code_Aa account /\
    snd worker_Aa <> Executor.code_definition example_env code_BB account.
Proof.
  eexists. split; [exact Aa_BB_distinct |]. split; [exact first_call_Aa |].
  split; [vm_compute; reflexivity |]. split; [reflexivity |].
  split; [reflexivity |].
  intros H. apply code_definition_injective in H. revert H. exact Aa_BB_distinct.
Qed.

Lemma sandbox_found_by_key_witness :
  exists call',
    Executor.createCodeExecutor example_env example_engine
      (Executor.cache_after call_Aa) code_BB account token_2 = Some call' /\
    Executor.effects call'
    = [Executor.CallEvaluate (env := example_env) worker_Aa [JStr token_2]].
Proof.
  apply (proj1 (proj1 (sandbox_found_by_key example_env example_engine)
                  (Executor.code_cache example_env) code_Aa account token_1
                  call_Aa worker_Aa
                  ltac:(constructor) first_call_Aa
                  ltac:(right; left; reflexivity))).
  symmetry. exact Aa_BB_collide.
Defined.

Section Credentials.
Variable env : Executor.Env.
Variable engine : Engine.

Local Abbreviation W := (Executor.Worker (Executor.LOADER env)).

Implicit Types (wc : WorkerCache.t W) (code accountId apiToken : jsstring).



(** The same on the search executor. *)
Lemma search_fault_not_cached specJson wc code e :
  JSMap.get (simpleHash code) (WorkerCache.cache wc) = None ->
  Executor.LOADER_get (Executor.LOADER env)
    (lit "cloudflare-search-" ++ simpleHash code)
    (worker_code (search_worker_js specJson code)) = Throw e ->
  exists call,
    Executor.createSearchExecutor env engine specJson wc code = Some call /\
    Executor.outcome call = Throw e /\
    Executor.cache_after call = wc.
Proof.
  intros Hmiss Hload.
  unfold Executor.createSearchExecutor, Executor.execute, Executor.cached_worker.
  cbv zeta. rewrite (get_miss _ _ Hmiss), Hload.
  eexists. split; [reflexivity |]. cbn. repeat split.
Qed.

End Credentials.



(** ** The bridge *)

Section BridgeTheorems.
Variable engine : Engine.

Lemma map_errors_reports : forall items reported,
  Forall2 reports items reported ->
  map_errors engine items = Return (map report_text reported).
Proof.
  induction 1 as [| e report items reported (fields & -> & Hcode & Hmsg) _ IH].
  - reflexivity.
  - cbn [map_errors get_prop bind]. rewrite IH, Hcode, Hmsg. reflexivity.
Qed.



End BridgeTheorems.


(** A thrown [null] is not caught: reading its message throws again, out
    of [evaluate]. *)
Lemma evaluate_throw_null :
  evaluate example_engine (Throw JNull)
  = Throw (TypeError example_engine JNull (lit "message")).
Proof. reflexivity. Qed.

(** A thrown string has no message, and an error can have an empty one:
    the outcome then has no error to show. *)
Lemma evaluate_throw_string :
  evaluate example_engine (Throw (JStr (lit "boom")))
  = Return {| result := JUndefined; err := JUndefined; stack := JUndefined |}.
Proof. reflexivity. Qed.

Lemma evaluate_empty_message :
  evaluate example_engine (Throw (new_Error example_engine []))
  = Return {| result := JUndefined; err := JStr [];
              stack := stack_of example_engine [] |}.
Proof. reflexivity. Qed.


(** The scenario of the specification: the upstream reports
    [1000: bad auth], [cloudflare.request] throws, the code does not
    catch, and [evaluate] returns the message. *)
Lemma bad_auth_scenario :
  request_response example_engine bad_auth_response
  = Throw (new_Error example_engine (lit "Cloudflare API error: 1000: bad auth")) /\
  forall rest : jsval -> completion jsval,
    exists r,
      evaluate example_engine
        (bind (request_response example_engine bad_auth_response) rest)
      = Return r /\
      error_form r /\
      err r = JStr (lit "Cloudflare API error: 1000: bad auth") /\
      includes (lit "Cloudflare API error: 1000: bad auth") (lit "1000: bad auth")
      = true.
Proof.
  split; [reflexivity |]. intros rest. eexists. split; [reflexivity |].
  split; [| split; reflexivity].
  split; [reflexivity |]. cbn. eauto.
Qed.


Lemma text_response_ok :
  request_response example_engine (text_response 200)
  = Return (JObj [(lit "success", JBool true); (lit "result", JStr (lit "hello"))]).
Proof. reflexivity. Qed.

Lemma text_response_not_found :
  request_response example_engine (text_response 404)
  = Throw (new_Error example_engine (lit "Cloudflare API error: 404 hello")).
Proof. reflexivity. Qed.

(** ** The truncator *)

Lemma length_digits (radix : Z) : forall fuel n acc,
  (List.length (digits radix fuel n acc) <= fuel + List.length acc)%nat.
Proof.
  induction fuel as [| fuel IH]; intros n acc; cbn [digits].
  - lia.
  - destruct (n / radix =? 0).
    + cbn [List.length]. lia.
    + specialize (IH (n / radix) (digit (n mod radix) :: acc)).
      cbn [List.length] in IH. lia.
Qed.

Lemma length_decimal (n : Z) :
  0 <= n < 2 ^ 53 -> (List.length (decimal n) <= 53)%nat.
Proof.
  intros [H0 H53]. unfold decimal, toStringRadix.
  destruct (Z.ltb_spec n 0) as [Hneg | _]; [lia |].
  pose proof (length_digits 10 (digits_fuel n) n []) as Hlen.
  cbn [List.length] in Hlen. unfold digits_fuel in *.
  assert (Hlog : Z.log2 n < 53).
  { destruct (Z.eq_dec n 0) as [-> | Hnz]; [reflexivity |].
    apply Z.log2_lt_pow2; lia. }
  pose proof (Z.log2_nonneg n). lia.
Qed.

Section TruncateTheorems.
Variable serialize : jsval -> jsstring.
Variable budget : Z.

(** C8, on the truncator as the specification describes it. A result
    whose serialized size exceeds the budget comes out at no more than
    the budget, and ends with the indicator of its original size. *)
Theorem truncate_within_budget (result : jsval) :
  10000 <= budget ->
  Truncate.serialized_size (serialize result) < 2 ^ 53 ->
  budget < Truncate.serialized_size (serialize result) ->
  Truncate.serialized_size (Truncate.truncateResponse serialize budget result)
  <= budget /\
  exists kept,
    Truncate.truncateResponse serialize budget result
    = kept ++ Truncate.indicator (Truncate.serialized_size (serialize result)) /\
    kept = firstn (List.length kept) (serialize result).
Proof.
  intros Hbudget Hmax Hlong. unfold Truncate.truncateResponse. cbv zeta.
  set (size := Truncate.serialized_size (serialize result)) in *.
  destruct (Z.leb_spec size budget) as [Hle | _]; [lia |].
  assert (Hind : Truncate.serialized_size (Truncate.indicator size) <= 85).
  { unfold Truncate.indicator, Truncate.serialized_size. rewrite !length_app.
    assert (0 <= size) by (unfold size, Truncate.serialized_size; lia).
    pose proof (length_decimal size ltac:(lia)) as Hd.
    change (List.length (lit "... [truncated, original size ")) with 30%nat.
    change (List.length (lit "]")) with 1%nat. lia. }
  set (room := Z.to_nat (budget - Truncate.serialized_size (Truncate.indicator size))).
  assert (Hroom : (room <= List.length (serialize result))%nat).
  { unfold room. unfold size, Truncate.serialized_size in *. lia. }
  split.
  - unfold Truncate.serialized_size at 1. rewrite length_app, length_firstn.
    unfold room, Truncate.serialized_size in *. lia.
  - eexists. split; [reflexivity |].
    rewrite length_firstn, Nat.min_l by exact Hroom. reflexivity.
Qed.

End TruncateTheorems.

Lemma truncate_within_budget_witness :
  Truncate.serialized_size
    (Truncate.truncateResponse plain_serialize 10000 long_result) <= 10000 /\
  exists kept,
    Truncate.truncateResponse plain_serialize 10000 long_result
    = kept ++ Truncate.indicator
                (Truncate.serialized_size (plain_serialize long_result)) /\
    kept = firstn (List.length kept) (plain_serialize long_result).
Proof.
  apply (truncate_within_budget plain_serialize 10000 long_result).
  - apply Z.leb_le. vm_compute. reflexivity.
  - apply Z.ltb_lt. vm_compute. reflexivity.
  - apply Z.ltb_lt. vm_compute. reflexivity.
Defined.

(** * Further properties *)

Import Poly Bridged Literal Agent.

(** ** More on the cache *)

Lemma recency_In (log : list jsstring) (k : jsstring) :
  In k (WorkerCache.recency log) <-> In k log.
Proof.
  induction log as [| x log IH]; simpl; [tauto |].
  split.
  - intros [-> | H]; [now left |]. apply in_remove in H. right. tauto.
  - intros [-> | H]; [now left |].
    destruct (jsstring_eq_dec x k) as [-> | Hne]; [now left |].
    right. apply in_in_remove; [congruence | tauto].
Qed.

Lemma recency_NoDup (log : list jsstring) : NoDup (WorkerCache.recency log).
Proof.
  induction log as [| x log IH]; simpl; constructor.
  - apply remove_In.
  - apply NoDup_remove_key, IH.
Qed.

Lemma length_remove_present (k : jsstring) (l : list jsstring) :
  NoDup l -> In k l ->
  S (List.length (remove jsstring_eq_dec k l)) = List.length l.
Proof.
  induction 1 as [| x l HnIn Hnd IH]; simpl; [tauto |].
  destruct (jsstring_eq_dec k x) as [-> | Hne].
  - intros _. rewrite notin_remove by exact HnIn. reflexivity.
  - intros [E | HIn]; [congruence |]. simpl. f_equal. apply IH, HIn.
Qed.

Lemma length_recency_cons (k : jsstring) (log : list jsstring) :
  List.length (WorkerCache.recency (k :: log))
  = if in_dec jsstring_eq_dec k log
    then List.length (WorkerCache.recency log)
    else S (List.length (WorkerCache.recency log)).
Proof.
  cbn [WorkerCache.recency List.length].
  destruct (in_dec jsstring_eq_dec k log) as [HIn | HnIn].
  - apply length_remove_present; [apply recency_NoDup | apply recency_In, HIn].
  - rewrite notin_remove; [reflexivity |]. rewrite recency_In. exact HnIn.
Qed.

Section MoreCacheFacts.
Context {V : Type}.
Implicit Types (c : WorkerCache.t V) (m s : JSMap.t V) (k key : jsstring) (v : V).

Lemma get_app key m m' :
  JSMap.get key (m ++ m')
  = match JSMap.get key m with
    | Some v => Some v
    | None => JSMap.get key m'
    end.
Proof.
  induction m as [| [k v] m IH]; simpl; [reflexivity |].
  destruct (jsstring_eq_dec key k); [reflexivity | exact IH].
Qed.

Lemma get_delete_other key k' m :
  k' <> key -> JSMap.get k' (JSMap.delete key m) = JSMap.get k' m.
Proof.
  intros Hne. induction m as [| [k v] m IH]; simpl; [reflexivity |].
  destruct (jsstring_eq_dec key k) as [-> | Hk]; simpl.
  - destruct (jsstring_eq_dec k' k); [congruence | reflexivity].
  - destruct (jsstring_eq_dec k' k); [reflexivity | exact IH].
Qed.

Lemma get_delete_same key m :
  NoDup (JSMap.keys m) -> JSMap.get key (JSMap.delete key m) = None.
Proof.
  intros Hnd. apply get_None_keys. rewrite keys_delete by exact Hnd.
  apply remove_In.
Qed.

Lemma get_unlink_other key k' m :
  k' <> key -> JSMap.get k' (WorkerCache.unlink key m) = JSMap.get k' m.
Proof.
  intros Hne. unfold WorkerCache.unlink.
  destruct (JSMap.has key m); [apply get_delete_other, Hne | reflexivity].
Qed.

(** The size of the cache is the number of keys used so far, up to the
    maximum. *)
Lemma run_size (n : Z) ops c log :
  1 <= n ->
  WorkerCache.run n ops c log ->
  List.length (WorkerCache.cache c)
  = Nat.min (Z.to_nat n) (List.length (WorkerCache.recency log)).
Proof.
  intros H1. induction 1 as [| ops c log o c' used Hrun IH Hstep].
  - cbn. lia.
  - destruct (run_invariant _ _ _ _ Hrun) as (Hmax & Hnd & Hsz & dead & Hrec).
    specialize (Hsz ltac:(lia)). unfold JSMap.size in Hsz.
    assert (Hlen : List.length (WorkerCache.recency log)
                   = (List.length (WorkerCache.cache c) + List.length dead)%nat).
    { rewrite Hrec, length_app, length_rev. unfold JSMap.keys.
      rewrite length_map. reflexivity. }
    assert (Hlive : forall k, In k (JSMap.keys (WorkerCache.cache c)) -> In k log).
    { intros k Hk. apply recency_In. rewrite Hrec. apply in_or_app. left.
      apply -> in_rev. exact Hk. }
    destruct Hstep as [key c value Hget | key c Hget | fuel key value c c' Hset].
    + rewrite (get_hit _ _ _ Hnd Hget).
      cbn [snd WorkerCache.cache WorkerCache.with_cache app].
      rewrite length_recency_cons.
      pose proof (get_Some_keys _ _ _ Hget) as HIn.
      destruct (in_dec jsstring_eq_dec key log) as [_ | HnIn];
        [| exfalso; auto].
      rewrite length_app. cbn [List.length].
      pose proof (length_delete_present _ _ HIn). lia.
    + rewrite (get_miss _ _ Hget). cbn [snd app]. exact IH.
    + pose proof (set_Some _ _ _ _ _ Hnd Hset) as (_ & _ & _ & ->).
      cbn [WorkerCache.cache WorkerCache.with_cache app].
      rewrite length_recency_cons, length_app, length_skipn. cbn [List.length].
      rewrite Hmax. unfold WorkerCache.unlink.
      destruct (JSMap.has key (WorkerCache.cache c)) eqn:Hhas.
      * assert (HIn : In key (JSMap.keys (WorkerCache.cache c))).
        { destruct (in_dec jsstring_eq_dec key (JSMap.keys (WorkerCache.cache c)))
            as [HIn | HnIn]; [exact HIn |].
          apply has_false_keys in HnIn. congruence. }
        destruct (in_dec jsstring_eq_dec key log) as [_ | HnIn];
          [| exfalso; auto].
        pose proof (length_delete_present _ _ HIn). lia.
      * apply has_false_keys in Hhas.
        destruct (in_dec jsstring_eq_dec key log) as [HIn | HnIn]; [| lia].
        assert (Hdead : In key dead).
        { apply recency_In in HIn. rewrite Hrec in HIn.
          apply in_app_or in HIn. destruct HIn as [HIn | HIn]; [| exact HIn].
          apply in_rev in HIn. contradiction. }
        destruct dead as [| d dead]; [contradiction |].
        cbn [List.length] in Hlen. lia.
Qed.

End MoreCacheFacts.

Section MoreCacheTheorems.
Context {V : Type}.
Implicit Types (c : WorkerCache.t V) (s : JSMap.t V) (k key : jsstring) (v : V).

(** X1. A cache constructed with a maximum of at least one holds exactly
    the most recently used keys, as many as the maximum allows, the
    latest last: a key is cached exactly when it is among them. *)
Theorem lru_exact (n : Z) ops c log :
  1 <= n ->
  WorkerCache.run n ops c log ->
  rev (JSMap.keys (WorkerCache.cache c))
  = firstn (Z.to_nat n) (WorkerCache.recency log) /\
  forall key,
    JSMap.has key (WorkerCache.cache c) = true <->
    In key (firstn (Z.to_nat n) (WorkerCache.recency log)).
Proof.
  intros H1 Hrun.
  assert (Horder : rev (JSMap.keys (WorkerCache.cache c))
                   = firstn (Z.to_nat n) (WorkerCache.recency log)).
  { destruct (run_invariant _ _ _ _ Hrun) as (_ & _ & _ & dead & Hrec).
    pose proof (run_size n ops c log H1 Hrun) as Hsize.
    assert (Hkeys : List.length (rev (JSMap.keys (WorkerCache.cache c)))
                    = List.length (WorkerCache.cache c))
      by (rewrite length_rev; unfold JSMap.keys; apply length_map).
    rewrite Hrec in *. rewrite length_app, Hkeys in Hsize.
    destruct (Nat.le_ge_cases (Z.to_nat n)
                (List.length (WorkerCache.cache c) + List.length dead)) as [Hle | Hge].
    - rewrite Nat.min_l in Hsize by exact Hle.
      rewrite <- Hsize, <- Hkeys, firstn_app, Nat.sub_diag, firstn_all.
      cbn [firstn]. symmetry. apply app_nil_r.
    - rewrite Nat.min_r in Hsize by exact Hge.
      destruct dead as [| d dead]; [| cbn [List.length] in Hsize; lia].
      rewrite app_nil_r. symmetry. apply firstn_all2. lia. }
  split; [exact Horder |].
  intros key. rewrite <- Horder, <- in_rev.
  destruct (JSMap.has key (WorkerCache.cache c)) eqn:Hhas.
  - split; [intros _ | reflexivity].
    destruct (in_dec jsstring_eq_dec key (JSMap.keys (WorkerCache.cache c)))
      as [HIn | HnIn]; [exact HIn |].
    apply has_false_keys in HnIn. congruence.
  - apply has_false_keys in Hhas. split; [discriminate | contradiction].
Qed.

(** X2. [get] changes the order of the entries and nothing else: on a
    cache in which no key stands twice it returns what the map holds
    for the key, and afterwards every key has the value it had and the
    cache the size it had. *)
Theorem get_keeps_contents c key :
  NoDup (JSMap.keys (WorkerCache.cache c)) ->
  fst (WorkerCache.get key c) = JSMap.get key (WorkerCache.cache c) /\
  List.length (WorkerCache.cache (snd (WorkerCache.get key c)))
  = List.length (WorkerCache.cache c) /\
  forall k',
    JSMap.get k' (WorkerCache.cache (snd (WorkerCache.get key c)))
    = JSMap.get k' (WorkerCache.cache c).
Proof.
  intros Hnd.
  destruct (JSMap.get key (WorkerCache.cache c)) as [value |] eqn:Hget.
  - rewrite (get_hit _ _ _ Hnd Hget).
    cbn [fst snd WorkerCache.cache WorkerCache.with_cache].
    split; [reflexivity |]. split.
    + rewrite length_app. cbn [List.length].
      pose proof (length_delete_present _ _ (get_Some_keys _ _ _ Hget)). lia.
    + intros k'. rewrite get_app.
      destruct (jsstring_eq_dec k' key) as [-> | Hne].
      * rewrite get_delete_same by exact Hnd. simpl.
        destruct (jsstring_eq_dec key key); congruence.
      * rewrite get_delete_other by exact Hne.
        destruct (JSMap.get k' (WorkerCache.cache c)); [reflexivity |].
        simpl. destruct (jsstring_eq_dec k' key); congruence.
  - rewrite (get_miss _ _ Hget). cbn [fst snd]. repeat split.
Qed.

(** X3. A [set] that returns evicts nothing when the key is already in
    the cache or the cache is not full: every other key keeps its
    value. *)
Theorem set_without_eviction (n : Z) ops c log fuel key value c' :
  WorkerCache.run n ops c log ->
  WorkerCache.set fuel key value c = Some c' ->
  JSMap.has key (WorkerCache.cache c) = true \/
  JSMap.size (WorkerCache.cache c) < n ->
  forall k', k' <> key ->
    JSMap.get k' (WorkerCache.cache c') = JSMap.get k' (WorkerCache.cache c).
Proof.
  intros Hrun Hset Hroom k' Hne.
  destruct (run_invariant _ _ _ _ Hrun) as (Hmax & Hnd & Hsz & _).
  pose proof (set_Some _ _ _ _ _ Hnd Hset) as (H1 & _ & _ & ->).
  cbn [WorkerCache.cache WorkerCache.with_cache].
  rewrite Hmax in *. specialize (Hsz ltac:(lia)). unfold JSMap.size in *.
  replace (List.length (WorkerCache.unlink key (WorkerCache.cache c))
           - Z.to_nat (n - 1))%nat with 0%nat.
  - cbn [skipn]. rewrite get_app, get_unlink_other by exact Hne.
    destruct (JSMap.get k' (WorkerCache.cache c)); [reflexivity |].
    simpl. destruct (jsstring_eq_dec k' key); congruence.
  - destruct Hroom as [Hhas | Hlt].
    + unfold WorkerCache.unlink. rewrite Hhas.
      assert (HIn : In key (JSMap.keys (WorkerCache.cache c))).
      { destruct (in_dec jsstring_eq_dec key (JSMap.keys (WorkerCache.cache c)))
          as [HIn | HnIn]; [exact HIn |].
        apply has_false_keys in HnIn. congruence. }
      pose proof (length_delete_present _ _ HIn). lia.
    + pose proof (length_unlink key (WorkerCache.cache c)). lia.
Qed.

(** X4. In a cache constructed with a maximum below one, [set] never
    returns, whatever the key and however many rounds of its loop are
    run. *)
Theorem set_never_returns c :
  WorkerCache.maxSize c <= 0 ->
  forall fuel key value, WorkerCache.set fuel key value c = None.
Proof. intros H0 fuel key value. apply set_diverges, H0. Qed.

End MoreCacheTheorems.

Lemma lru_exact_witness :
  rev (JSMap.keys [(key_b, 2); (key_a, 1)])
  = firstn (Z.to_nat 2) (WorkerCache.recency [key_a; key_b; key_a]) /\
  forall key,
    JSMap.has key [(key_b, 2); (key_a, 1)] = true <->
    In key (firstn (Z.to_nat 2) (WorkerCache.recency [key_a; key_b; key_a])).
Proof.
  apply (lru_exact 2
           [WorkerCache.OpGet key_a; WorkerCache.OpSet key_b 2;
            WorkerCache.OpSet key_a 1]
           (WorkerCache.mk [(key_b, 2); (key_a, 1)] 2)
           [key_a; key_b; key_a]).
  - lia.
  - apply exec_run. reflexivity.
Defined.

Lemma get_keeps_contents_witness :
  fst (WorkerCache.get key_a (WorkerCache.mk [(key_a, 1); (key_b, 2)] 2))
  = JSMap.get key_a [(key_a, 1); (key_b, 2)] /\
  List.length
    (WorkerCache.cache
       (snd (WorkerCache.get key_a (WorkerCache.mk [(key_a, 1); (key_b, 2)] 2))))
  = List.length [(key_a, 1); (key_b, 2)] /\
  forall k',
    JSMap.get k'
      (WorkerCache.cache
         (snd (WorkerCache.get key_a (WorkerCache.mk [(key_a, 1); (key_b, 2)] 2))))
    = JSMap.get k' [(key_a, 1); (key_b, 2)].
Proof.
  apply (get_keeps_contents (WorkerCache.mk [(key_a, 1); (key_b, 2)] 2) key_a).
  cbn. repeat constructor.
  - intros [H | []]. vm_compute in H. discriminate H.
  - intros [].
Defined.

Lemma set_without_eviction_witness :
  JSMap.get key_b [(key_b, 2); (key_a, 7)] = JSMap.get key_b [(key_a, 1); (key_b, 2)].
Proof.
  apply (set_without_eviction 2
           [WorkerCache.OpSet key_b 2; WorkerCache.OpSet key_a 1]
           (WorkerCache.mk [(key_a, 1); (key_b, 2)] 2)
           [key_b; key_a] 3%nat key_a 7
           (WorkerCache.mk [(key_b, 2); (key_a, 7)] 2)).
  - apply exec_run. reflexivity.
  - reflexivity.
  - left. reflexivity.
  - discriminate.
Defined.

Lemma set_never_returns_witness :
  WorkerCache.set 1000 key_a 1 (WorkerCache.new 0) = None.
Proof.
  apply (set_never_returns (WorkerCache.new 0)). cbn. lia.
Defined.

(** ** The hash as a polynomial *)

Lemma toInt32_congr (a b : Z) :
  (a - b) mod 2 ^ 32 = 0 -> toInt32 a = toInt32 b.
Proof.
  intros H. unfold toInt32. f_equal.
  apply Z.mod_divide in H; [| lia]. destruct H as [q Hq].
  replace (a + 2 ^ 31) with (b + 2 ^ 31 + q * 2 ^ 32) by lia.
  apply Z.mod_add. lia.
Qed.

Lemma toInt32_eq_inv (a b : Z) :
  toInt32 a = toInt32 b -> (a - b) mod 2 ^ 32 = 0.
Proof.
  unfold toInt32. intros H.
  assert (H' : (a + 2 ^ 31) mod 2 ^ 32 = (b + 2 ^ 31) mod 2 ^ 32) by lia.
  replace (a - b) with ((a + 2 ^ 31) - (b + 2 ^ 31)) by lia.
  rewrite Zminus_mod, H', Z.sub_diag. reflexivity.
Qed.

Lemma poly31_acc (str : jsstring) : forall acc,
  poly31 str acc = 31 ^ Z.of_nat (List.length str) * acc + poly31 str 0.
Proof.
  unfold poly31. induction str as [| c str IH]; intros acc.
  - cbn [fold_left List.length]. change (Z.of_nat 0) with 0.
    rewrite Z.pow_0_r. lia.
  - cbn [fold_left List.length]. rewrite IH, (IH (31 * 0 + c)).
    rewrite Nat2Z.inj_succ, Z.pow_succ_r by lia. lia.
Qed.

Lemma hash_loop_poly (str : jsstring) : forall hash,
  int32 hash -> hash_loop str hash = toInt32 (poly31 str hash).
Proof.
  induction str as [| c str IH]; intros hash Hh.
  - cbn. symmetry. apply toInt32_small, Hh.
  - cbn [hash_loop fold_left]. fold (hash_loop str (hash_step hash c)).
    rewrite IH by apply hash_step_range.
    rewrite (hash_step_31 _ _ Hh). unfold poly31. cbn [fold_left].
    fold (poly31 str (toInt32 (31 * hash + c))).
    fold (poly31 str (31 * hash + c)).
    rewrite (poly31_acc str (toInt32 _)), (poly31_acc str (31 * hash + c)).
    apply toInt32_congr.
    replace (31 ^ Z.of_nat (List.length str) * toInt32 (31 * hash + c) + poly31 str 0
             - (31 ^ Z.of_nat (List.length str) * (31 * hash + c) + poly31 str 0))
      with (31 ^ Z.of_nat (List.length str)
            * (toInt32 (31 * hash + c) - (31 * hash + c))) by lia.
    rewrite <- Z.mul_mod_idemp_r by lia.
    rewrite (toInt32_eq_inv (toInt32 (31 * hash + c)) (31 * hash + c)).
    + rewrite Z.mul_0_r. reflexivity.
    + apply toInt32_small, toInt32_range.
Qed.

Lemma int32_zero : int32 0.
Proof. unfold int32. lia. Qed.

(** X5. [simpleHash] is the multiply-by-31 polynomial hash of the code
    units, wrapped to a signed 32-bit integer once at the end and
    written in base 36. *)
Theorem simpleHash_polynomial (str : jsstring) :
  hash_code str = toInt32 (poly31 str 0) /\
  simpleHash str = toString36 (toInt32 (poly31 str 0)).
Proof.
  assert (H : hash_code str = toInt32 (poly31 str 0))
    by (apply hash_loop_poly, int32_zero).
  split; [exact H |]. unfold simpleHash. rewrite H. reflexivity.
Qed.

Lemma hash_loop_same (a b : jsstring) :
  List.length a = List.length b ->
  hash_code a = hash_code b ->
  forall hash, int32 hash -> hash_loop a hash = hash_loop b hash.
Proof.
  intros Hlen Hhash hash Hh.
  unfold hash_code in Hhash.
  rewrite !hash_loop_poly in Hhash by apply int32_zero.
  rewrite !hash_loop_poly by exact Hh.
  rewrite (poly31_acc a), (poly31_acc b), Hlen.
  apply toInt32_congr. apply toInt32_eq_inv in Hhash.
  replace (31 ^ Z.of_nat (List.length b) * hash + poly31 a 0
           - (31 ^ Z.of_nat (List.length b) * hash + poly31 b 0))
    with (poly31 a 0 - poly31 b 0) by lia.
  exact Hhash.
Qed.

(** X6. Two strings of one length with one hash keep one hash when the
    same text is put before and after them: from one collision come
    colliding code strings of any length, with the same cache key under
    every account. *)
Theorem collision_in_context (a b : jsstring) :
  List.length a = List.length b ->
  hash_code a = hash_code b ->
  forall before after accountId,
    simpleHash (before ++ a ++ after) = simpleHash (before ++ b ++ after) /\
    cacheKey accountId (before ++ a ++ after)
    = cacheKey accountId (before ++ b ++ after).
Proof.
  intros Hlen Hhash before after accountId.
  assert (H : simpleHash (before ++ a ++ after) = simpleHash (before ++ b ++ after)).
  { unfold simpleHash, hash_code, hash_loop. rewrite !fold_left_app.
    fold (hash_loop before 0). fold (hash_loop a (hash_loop before 0)).
    fold (hash_loop b (hash_loop before 0)).
    rewrite (hash_loop_same a b Hlen Hhash); [reflexivity |].
    apply hash_loop_range, int32_zero. }
  split; [exact H | apply cacheKey_of_hash, H].
Qed.

Lemma collision_in_context_witness :
  simpleHash (lit "return '" ++ lit "Aa" ++ lit "';")
  = simpleHash (lit "return '" ++ lit "BB" ++ lit "';") /\
  cacheKey account (lit "return '" ++ lit "Aa" ++ lit "';")
  = cacheKey account (lit "return '" ++ lit "BB" ++ lit "';").
Proof.
  apply (collision_in_context (lit "Aa") (lit "BB")); reflexivity.
Defined.

(** ** The shape of a hash *)

Lemma digit_hash_char (d : Z) : 0 <= d < 36 -> hash_char (digit d).
Proof.
  intros H. unfold digit, hash_char. destruct (Z.ltb_spec d 10); lia.
Qed.

Lemma digits_hash_chars (radix : Z) : 2 <= radix <= 36 ->
  forall fuel n acc, Forall hash_char acc ->
  Forall hash_char (digits radix fuel n acc).
Proof.
  intros Hr. induction fuel as [| fuel IH]; intros n acc Hacc; cbn [digits].
  - exact Hacc.
  - assert (Hd : hash_char (digit (n mod radix))).
    { apply digit_hash_char.
      pose proof (Z.mod_pos_bound n radix ltac:(lia)). lia. }
    destruct (n / radix =? 0); [| apply IH]; constructor; assumption.
Qed.

Lemma digits_count (radix : Z) : 2 <= radix ->
  forall fuel k n acc,
    0 <= n < radix ^ Z.of_nat (S k) ->
    (List.length (digits radix fuel n acc) <= S k + List.length acc)%nat.
Proof.
  intros Hr. induction fuel as [| fuel IH]; intros k n acc Hn.
  - cbn. lia.
  - rewrite digits_S.
    destruct (Z.eqb_spec (n / radix) 0) as [Hq | Hq].
    + cbn [List.length]. lia.
    + destruct k as [| k].
      * exfalso. apply Hq. apply Z.div_small.
        change (Z.of_nat 1) with 1 in Hn. rewrite Z.pow_1_r in Hn. exact Hn.
      * specialize (IH k (n / radix) (digit (n mod radix) :: acc)).
        cbn [List.length] in IH.
        assert (0 <= n / radix < radix ^ Z.of_nat (S k)).
        { split; [apply Z.div_pos; lia |].
          apply Z.div_lt_upper_bound; [lia |].
          rewrite (Nat2Z.inj_succ (S k)), Z.pow_succ_r in Hn by lia. lia. }
        specialize (IH ltac:(assumption)). lia.
Qed.

Lemma digits_nonempty (radix : Z) (fuel : nat) (n : Z) :
  digits radix (S fuel) n [] <> [].
Proof.
  rewrite digits_S. destruct (n / radix =? 0); [discriminate |].
  rewrite digits_acc. intros H. apply app_eq_nil in H. destruct H; discriminate.
Qed.

Lemma simpleHash_chars (str : jsstring) : Forall hash_char (simpleHash str).
Proof.
  unfold simpleHash, toString36, toStringRadix.
  destruct (hash_code str <? 0).
  - constructor; [left; reflexivity |].
    apply digits_hash_chars; [lia | constructor].
  - apply digits_hash_chars; [lia | constructor].
Qed.

Lemma simpleHash_no_colon (str : jsstring) : ~ In 58 (simpleHash str).
Proof.
  intros HIn. pose proof (simpleHash_chars str) as Hchars.
  rewrite Forall_forall in Hchars. specialize (Hchars 58 HIn).
  unfold hash_char in Hchars. lia.
Qed.

(** X7. [simpleHash] returns one to seven characters, each a minus sign,
    a digit or a lower-case letter; none is a colon. *)
Theorem simpleHash_shape (str : jsstring) :
  (1 <= List.length (simpleHash str) <= 7)%nat /\
  Forall hash_char (simpleHash str) /\
  ~ In 58 (simpleHash str).
Proof.
  pose proof (hash_code_range str) as Hr. unfold int32 in Hr.
  split; [| split; [apply simpleHash_chars | apply simpleHash_no_colon]].
  - unfold simpleHash, toString36, toStringRadix.
    destruct (Z.ltb_spec (hash_code str) 0) as [Hneg | Hpos].
    + pose proof (digits_count 36 ltac:(lia) (digits_fuel (- hash_code str)) 5
                    (- hash_code str) []) as Hlen.
      cbn [List.length] in *. split; [lia |].
      assert (- hash_code str < 36 ^ Z.of_nat 6) by (change (36 ^ Z.of_nat 6) with 2176782336; lia).
      specialize (Hlen ltac:(lia)). lia.
    + pose proof (digits_count 36 ltac:(lia) (digits_fuel (hash_code str)) 5
                    (hash_code str) []) as Hlen.
      assert (hash_code str < 36 ^ Z.of_nat 6) by (change (36 ^ Z.of_nat 6) with 2176782336; lia).
      specialize (Hlen ltac:(lia)). cbn [List.length] in Hlen.
      split; [| lia].
      unfold digits_fuel.
      pose proof (digits_nonempty 36 (Z.to_nat (Z.log2 (hash_code str))) (hash_code str)).
      destruct (digits 36 _ _ _); [congruence | cbn; lia].
Qed.

Lemma split_at_last (x : Z) : forall l1 r1 l2 r2 : jsstring,
  ~ In x r1 -> ~ In x r2 ->
  l1 ++ x :: r1 = l2 ++ x :: r2 -> l1 = l2 /\ r1 = r2.
Proof.
  induction l1 as [| a l1 IH]; intros r1 l2 r2 H1 H2 H.
  - destruct l2 as [| b l2]; cbn in H.
    + injection H as H. split; [reflexivity | exact H].
    + injection H as <- H. exfalso. apply H1. rewrite H.
      apply in_or_app. right. now left.
  - destruct l2 as [| b l2]; cbn in H.
    + injection H as -> H. exfalso. apply H2. rewrite <- H.
      apply in_or_app. right. now left.
    + injection H as <- H. destruct (IH _ _ _ H1 H2 H) as [-> ->].
      split; reflexivity.
Qed.

(** X8. The cache key of the API executor tells accounts apart: two
    requests have one key exactly when they have one account identifier
    and codes with one 32-bit hash, whatever characters the account
    identifiers hold. *)
Theorem cacheKey_isolates_accounts (accountId accountId' code code' : jsstring) :
  cacheKey accountId code = cacheKey accountId' code' <->
  accountId = accountId' /\ hash_code code = hash_code code'.
Proof.
  split.
  - unfold cacheKey. change (lit ":") with [58]. cbn [app]. intros H.
    apply split_at_last in H; try apply simpleHash_no_colon.
    destruct H as [-> H]. split; [reflexivity |].
    apply (cacheKey_eq_iff accountId'). unfold cacheKey. rewrite H. reflexivity.
  - intros [-> H]. apply cacheKey_eq_iff, H.
Qed.

Lemma cacheKey_isolates_accounts_witness :
  cacheKey account code_Aa = cacheKey account code_BB.
Proof.
  apply (proj2 (cacheKey_isolates_accounts account account code_Aa code_BB)).
  split; reflexivity.
Defined.

(** ** More on the executors *)

Section MoreExecutorTheorems.
Variable env : Executor.Env.
Variable engine : Engine.

Local Abbreviation W := (Executor.Worker (Executor.LOADER env)).

Implicit Types (wc : WorkerCache.t W) (code accountId apiToken : jsstring).

(** X9. Whatever requests the API executor has served, its cache holds
    at most 20 workers, no key twice, and the next call returns; the
    same holds of the search executor with 5. *)
Theorem executors_stay_in_bound :
  (forall wc,
     Executor.code_served env engine wc ->
     JSMap.size (WorkerCache.cache wc) <= 20 /\
     NoDup (JSMap.keys (WorkerCache.cache wc)) /\
     forall code accountId apiToken,
       exists call,
         Executor.createCodeExecutor env engine wc code accountId apiToken
         = Some call) /\
  (forall specJson wc,
     Executor.search_served env engine specJson wc ->
     JSMap.size (WorkerCache.cache wc) <= 5 /\
     NoDup (JSMap.keys (WorkerCache.cache wc)) /\
     forall code,
       exists call,
         Executor.createSearchExecutor env engine specJson wc code = Some call).
Proof.
  split.
  - intros wc. apply code_served_bound.
  - intros specJson wc. apply search_served_bound.
Qed.

(** X10. Every worker in the cache of the API executor was returned by
    the loader for the definition of a code and an account that have
    the key of the entry: no worker is cached under a key that it was
    not built for. *)
Theorem cached_workers_built_for_key wc :
  Executor.code_served env engine wc ->
  forall key worker,
    JSMap.get key (WorkerCache.cache wc) = Some worker ->
    exists code accountId,
      key = cacheKey accountId code /\
      Executor.LOADER_get (Executor.LOADER env) (lit "cloudflare-api-" ++ key)
        (Executor.code_definition env code accountId) = Return worker.
Proof. apply code_served_entries. Qed.

(** X11. When [evaluate] fails on the worker of a call, the call fails
    with the same error and the worker stays cached: the next call for
    the same account and code is a hit on it, without a call of the
    loader. *)
Theorem failed_invocation_stays_cached wc code accountId apiToken call worker e :
  NoDup (JSMap.keys (WorkerCache.cache wc)) ->
  Executor.createCodeExecutor env engine wc code accountId apiToken = Some call ->
  In (Executor.CallEvaluate worker [JStr apiToken]) (Executor.effects call) ->
  Executor.entrypoint_evaluate (Executor.LOADER env) worker [JStr apiToken] = Throw e ->
  Executor.outcome call = Throw e /\
  forall apiToken',
    exists call',
      Executor.createCodeExecutor env engine (Executor.cache_after call)
        code accountId apiToken' = Some call' /\
      Executor.effects call' = [Executor.CallEvaluate worker [JStr apiToken']].
Proof.
  intros Hnd Hcall HIn Hev. unfold Executor.createCodeExecutor in *. cbv zeta in *.
  destruct (invocation_fault_keeps_worker env engine _ _ _ _ _ _ _ _
              Hnd Hcall HIn Hev) as [Hout Hget].
  split; [exact Hout |]. intros apiToken'.
  assert (Hnd' : NoDup (JSMap.keys (WorkerCache.cache (Executor.cache_after call)))).
  { destruct (execute_cases _ _ _ _ _ _ _ _ Hnd Hcall)
      as [(w & _ & _ & _ & Hinst) | [(_ & e' & _ & _ & _ & Hsame)
         | (_ & w & _ & _ & _ & Hinst)]];
      [apply Hinst | rewrite Hsame; exact Hnd | apply Hinst]. }
  destruct (execute_hit env engine (Executor.cache_after call) _
              (lit "cloudflare-api-" ++ (accountId ++ lit ":" ++ simpleHash code))
              (Executor.code_definition env code accountId)
              [JStr apiToken'] worker Hnd' Hget)
    as (call' & Hc' & _ & He' & _).
  eauto.
Qed.

(** X12. When the loader throws on a miss of the search executor, the
    call throws what the loader has thrown and the cache is as it
    was. *)
Theorem search_construction_fault_not_cached specJson wc code e :
  JSMap.get (simpleHash code) (WorkerCache.cache wc) = None ->
  Executor.LOADER_get (Executor.LOADER env)
    (lit "cloudflare-search-" ++ simpleHash code)
    (worker_code (search_worker_js specJson code)) = Throw e ->
  exists call,
    Executor.createSearchExecutor env engine specJson wc code = Some call /\
    Executor.outcome call = Throw e /\
    Executor.cache_after call = wc.
Proof. apply search_fault_not_cached. Qed.

(** X13. Through the bridge and back: when the worker runs [evaluate]
    around the embedded code, a value that the code returns is the
    result of the call, and an error that it throws with a non-empty
    message is thrown again by the call as a new error with that
    message. *)
Theorem bridge_end_to_end (worker : W) args user :
  Executor.entrypoint_evaluate (Executor.LOADER env) worker args
  = evaluate engine user ->
  (forall value,
     user = Return value ->
     Executor.invoke env engine worker args = Return value) /\
  (forall fields c message,
     user = Throw (JObj fields) ->
     field (lit "message") fields = JStr (c :: message) ->
     Executor.invoke env engine worker args
     = Throw (new_Error engine (c :: message))).
Proof.
  intros Hsandbox. unfold Executor.invoke. rewrite Hsandbox. split.
  - intros value ->. reflexivity.
  - intros fields c message -> Hmsg. cbn [evaluate get_prop bind]. rewrite Hmsg.
    reflexivity.
Qed.

(** X14. A failure without a message is lost: when the embedded code
    throws a value that is not [null] or [undefined] and whose message
    is missing, empty or otherwise falsy, the call does not fail but
    returns [undefined]; a thrown [null] or [undefined] makes the call
    fail with the type error of reading its message. *)
Theorem failure_without_message_is_lost (worker : W) args e :
  Executor.entrypoint_evaluate (Executor.LOADER env) worker args
  = evaluate engine (Throw e) ->
  (forall message,
     get_prop engine e (lit "message") = Return message ->
     truthy message = false ->
     Executor.invoke env engine worker args = Return JUndefined) /\
  (e = JNull \/ e = JUndefined ->
   Executor.invoke env engine worker args
   = Throw (TypeError engine e (lit "message"))).
Proof.
  intros Hsandbox. unfold Executor.invoke. rewrite Hsandbox. split.
  - intros message Hmsg Hfalsy. cbn [evaluate]. rewrite Hmsg. cbn [bind].
    destruct e; cbn [get_prop bind] in *; try discriminate;
      cbn [err result]; rewrite Hfalsy; reflexivity.
  - intros [-> | ->]; reflexivity.
Qed.

End MoreExecutorTheorems.

Lemma executors_stay_in_bound_witness :
  JSMap.size (WorkerCache.cache (Executor.cache_after call_Aa)) <= 20 /\
  NoDup (JSMap.keys (WorkerCache.cache (Executor.cache_after call_Aa))) /\
  forall code accountId apiToken,
    exists call,
      Executor.createCodeExecutor example_env example_engine
        (Executor.cache_after call_Aa) code accountId apiToken = Some call.
Proof.
  apply (proj1 (executors_stay_in_bound example_env example_engine)).
  apply (Executor.code_served_call example_env example_engine
           (Executor.code_cache example_env) code_Aa account token_1 call_Aa).
  - apply Executor.code_served_new.
  - exact first_call_Aa.
Defined.

Lemma cached_workers_built_for_key_witness :
  exists code accountId,
    cacheKey account code_Aa = cacheKey accountId code /\
    Executor.LOADER_get (Executor.LOADER example_env)
      (lit "cloudflare-api-" ++ cacheKey account code_Aa)
      (Executor.code_definition example_env code accountId) = Return worker_Aa.
Proof.
  apply (cached_workers_built_for_key example_env example_engine
           (Executor.cache_after call_Aa)).
  - apply (Executor.code_served_call example_env example_engine
             (Executor.code_cache example_env) code_Aa account token_1 call_Aa).
    + apply Executor.code_served_new.
    + exact first_call_Aa.
  - vm_compute. reflexivity.
Defined.

Lemma first_call_lazy_broken :
  Executor.createCodeExecutor lazy_broken_env example_engine
    (Executor.code_cache lazy_broken_env) code_Aa account token_1
  = Some (Executor.Build_call lazy_broken_env
            (Throw start_fault)
            (WorkerCache.mk [(cacheKey account code_Aa, worker_Aa)] 20)
            [Executor.CallLoaderGet (fst worker_Aa) (snd worker_Aa);
             Executor.CallEvaluate (env := lazy_broken_env) worker_Aa
               [JStr token_1]]).
Proof. vm_compute. reflexivity. Qed.

Lemma failed_invocation_stays_cached_witness :
  exists call',
    Executor.createCodeExecutor lazy_broken_env example_engine
      (WorkerCache.mk [(cacheKey account code_Aa, worker_Aa)] 20)
      code_Aa account token_2 = Some call' /\
    Executor.effects call'
    = [Executor.CallEvaluate (env := lazy_broken_env) worker_Aa [JStr token_2]].
Proof.
  apply (proj2 (failed_invocation_stays_cached lazy_broken_env example_engine
                  (Executor.code_cache lazy_broken_env) code_Aa account token_1
                  _ worker_Aa start_fault
                  ltac:(constructor) first_call_lazy_broken
                  ltac:(right; left; reflexivity) eq_refl) token_2).
Defined.

Lemma search_construction_fault_not_cached_witness :
  exists call,
    Executor.createSearchExecutor broken_env example_engine (lit "{}")
      (Executor.search_cache broken_env) code_Aa = Some call /\
    Executor.outcome call = Throw loader_fault /\
    Executor.cache_after call = Executor.search_cache broken_env.
Proof.
  apply (search_construction_fault_not_cached broken_env example_engine);
    reflexivity.
Defined.

Lemma bridge_end_to_end_witness :
  Executor.invoke (bridged_env example_engine (fun _ _ => Return (JNum 42)))
    example_engine worker_Aa [] = Return (JNum 42).
Proof.
  apply (proj1 (bridge_end_to_end
                  (bridged_env example_engine (fun _ _ => Return (JNum 42)))
                  example_engine worker_Aa [] (Return (JNum 42)) eq_refl)).
  reflexivity.
Defined.

Lemma failure_without_message_is_lost_witness :
  Executor.invoke
    (bridged_env example_engine (fun _ _ => Throw (JStr (lit "boom"))))
    example_engine worker_Aa [] = Return JUndefined.
Proof.
  apply (proj1 (failure_without_message_is_lost
                  (bridged_env example_engine (fun _ _ => Throw (JStr (lit "boom"))))
                  example_engine worker_Aa [] (JStr (lit "boom")) eq_refl)
           JUndefined); reflexivity.
Defined.

(** ** The literals of the sandbox definition *)

(** Induction on a string that may take two code units at a step. *)
Lemma two_step_induction (P : jsstring -> Prop) :
  P [] ->
  (forall c rest,
     P rest -> (forall d rest', rest = d :: rest' -> P rest') -> P (c :: rest)) ->
  forall s, P s.
Proof.
  intros Hnil Hcons.
  assert (H : forall s, P s /\ (forall d rest', s = d :: rest' -> P rest')).
  { induction s as [| c s [IH1 IH2]].
    - split; [exact Hnil | discriminate].
    - split; [apply Hcons; assumption |].
      intros d rest' [= <- <-]. exact IH1. }
  intros s. apply H.
Qed.

Lemma hex_digit_plain (d : Z) :
  0 <= d < 16 -> digit d <> 92 /\ digit d <> 34 /\ 32 <= digit d.
Proof. intros H. unfold digit. destruct (Z.ltb_spec d 10); lia. Qed.

Lemma literal_body_ok_plain (c : Z) (rest : jsstring) :
  c <> 92 -> c <> 34 -> 32 <= c ->
  literal_body_ok (c :: rest) = literal_body_ok rest.
Proof.
  intros H92 H34 H32. cbn [literal_body_ok].
  destruct (Z.eqb_spec c 92); [contradiction |].
  destruct (Z.eqb_spec c 34); [contradiction |].
  destruct (Z.leb_spec 32 c); [reflexivity | lia].
Qed.

Lemma literal_body_ok_backslash (e : Z) (rest : jsstring) :
  literal_body_ok (92 :: e :: rest) = literal_body_ok rest.
Proof. reflexivity. Qed.

Lemma literal_body_ok_escape (c : Z) (rest : jsstring) :
  literal_body_ok (unicode_escape c ++ rest) = literal_body_ok rest.
Proof.
  unfold unicode_escape, hex4. change (lit "\u") with [92; 117].
  cbn [app]. rewrite literal_body_ok_backslash.
  assert (Hd : forall n, 0 <= n mod 16 < 16)
    by (intros n; apply Z.mod_pos_bound; lia).
  rewrite !literal_body_ok_plain; try apply hex_digit_plain; auto.
Qed.

Lemma quote_units_ok (s : jsstring) : literal_body_ok (quote_units s) = true.
Proof.
  induction s as [| c rest IH IH2] using two_step_induction; [reflexivity |].
  cbn [quote_units].
  destruct (Z.eqb_spec c 8) as [-> | H8]; [exact IH |].
  destruct (Z.eqb_spec c 9) as [-> | H9]; [exact IH |].
  destruct (Z.eqb_spec c 10) as [-> | H10]; [exact IH |].
  destruct (Z.eqb_spec c 12) as [-> | H12]; [exact IH |].
  destruct (Z.eqb_spec c 13) as [-> | H13]; [exact IH |].
  destruct (Z.eqb_spec c 34) as [-> | H34]; [exact IH |].
  destruct (Z.eqb_spec c 92) as [-> | H92]; [exact IH |].
  destruct (Z.ltb_spec c 32) as [Hlow | Hhigh].
  { rewrite literal_body_ok_escape. exact IH. }
  assert (Hplain : forall r, literal_body_ok (c :: r) = literal_body_ok r)
    by (intros r; apply literal_body_ok_plain; lia).
  destruct (is_lead c) eqn:Hlead.
  - destruct rest as [| d rest'].
    + rewrite <- (app_nil_r (unicode_escape c)), literal_body_ok_escape.
      reflexivity.
    + destruct (is_trail d) eqn:Htrail.
      * rewrite Hplain. unfold is_trail in Htrail.
        rewrite literal_body_ok_plain by lia. apply (IH2 d rest' eq_refl).
      * rewrite literal_body_ok_escape. exact IH.
  - destruct (is_trail c).
    + rewrite literal_body_ok_escape. exact IH.
    + rewrite Hplain. exact IH.
Qed.

Lemma hex4_value (c : Z) :
  code_unit c -> parse_digits 16 (hex4 c) = c.
Proof.
  intros Hc. unfold code_unit in Hc. unfold hex4, parse_digits.
  cbn [fold_left].
  assert (Hd : forall n, 0 <= n mod 16 < 36)
    by (intros n; pose proof (Z.mod_pos_bound n 16 ltac:(lia)); lia).
  rewrite !digit_value_digit by apply Hd.
  Z.div_mod_to_equations. lia.
Qed.

Lemma unquote_units_plain (c : Z) (rest : jsstring) :
  c <> 92 -> c <> 34 ->
  unquote_units (c :: rest) = option_map (cons c) (unquote_units rest).
Proof.
  intros H92 H34. cbn [unquote_units].
  destruct (Z.eqb_spec c 92); [contradiction |].
  destruct (Z.eqb_spec c 34); [contradiction | reflexivity].
Qed.

Lemma unquote_units_escape (c : Z) (rest : jsstring) :
  code_unit c ->
  unquote_units (unicode_escape c ++ rest)
  = option_map (cons c) (unquote_units rest).
Proof.
  intros Hc. rewrite <- (hex4_value c Hc) at 2. reflexivity.
Qed.

(** X16. [JSON.parse] reads back what [JSON.stringify] has written for
    a string: nothing of the API base or the account identifier is lost
    or changed in the literal, and two strings have one literal only
    when they are one string. *)
Theorem JSON_string_round_trip (s : jsstring) :
  Forall code_unit s ->
  JSON_parse_string (JSON_stringify s) = Some s /\
  forall s', Forall code_unit s' -> JSON_stringify s = JSON_stringify s' -> s = s'.
Proof.
  assert (Hbody : forall t : jsstring,
            Forall code_unit t -> unquote_units (quote_units t) = Some t).
  { induction t as [| c rest IH IH2] using two_step_induction;
      [reflexivity |].
    intros Hall. inversion Hall as [| ? ? Hc Hrest]; subst.
    specialize (IH Hrest). cbn [quote_units].
    destruct (Z.eqb_spec c 8) as [-> | H8]; [cbn; rewrite IH; reflexivity |].
    destruct (Z.eqb_spec c 9) as [-> | H9]; [cbn; rewrite IH; reflexivity |].
    destruct (Z.eqb_spec c 10) as [-> | H10]; [cbn; rewrite IH; reflexivity |].
    destruct (Z.eqb_spec c 12) as [-> | H12]; [cbn; rewrite IH; reflexivity |].
    destruct (Z.eqb_spec c 13) as [-> | H13]; [cbn; rewrite IH; reflexivity |].
    destruct (Z.eqb_spec c 34) as [-> | H34]; [cbn; rewrite IH; reflexivity |].
    destruct (Z.eqb_spec c 92) as [-> | H92]; [cbn; rewrite IH; reflexivity |].
    destruct (Z.ltb_spec c 32) as [Hlow | Hhigh].
    { rewrite unquote_units_escape, IH by exact Hc. reflexivity. }
    destruct (is_lead c) eqn:Hlead.
    - destruct rest as [| d rest'].
      + rewrite <- (app_nil_r (unicode_escape c)), unquote_units_escape by exact Hc.
        reflexivity.
      + destruct (is_trail d) eqn:Htrail.
        * inversion Hrest as [| ? ? Hd Hrest']; subst.
          unfold is_trail in Htrail.
          rewrite !unquote_units_plain by lia.
          rewrite (IH2 d rest' eq_refl Hrest'). reflexivity.
        * rewrite unquote_units_escape, IH by exact Hc. reflexivity.
    - destruct (is_trail c).
      + rewrite unquote_units_escape, IH by exact Hc. reflexivity.
      + rewrite unquote_units_plain, IH by assumption. reflexivity. }
  assert (Hparse : forall t, Forall code_unit t ->
                     JSON_parse_string (JSON_stringify t) = Some t).
  { intros t Ht. unfold JSON_parse_string, JSON_stringify.
    rewrite rev_app_distr. cbn [rev app]. rewrite rev_involutive.
    apply Hbody, Ht. }
  intros Hs. split; [apply Hparse, Hs |].
  intros s' Hs' Heq.
  pose proof (Hparse s Hs) as H1. rewrite Heq, (Hparse s' Hs') in H1.
  congruence.
Qed.

Lemma JSON_string_round_trip_witness :
  JSON_parse_string (JSON_stringify account) = Some account /\
  forall s', Forall code_unit s' -> JSON_stringify account = JSON_stringify s' ->
             account = s'.
Proof.
  apply (JSON_string_round_trip account).
  vm_compute. repeat constructor; discriminate.
Defined.

(** Where the inside of a literal ends is settled by the text. *)
Lemma literal_end_unique : forall body body' rest rest' : jsstring,
  literal_body_ok body = true ->
  literal_body_ok body' = true ->
  body ++ 34 :: rest = body' ++ 34 :: rest' ->
  body = body' /\ rest = rest'.
Proof.
  induction body as [| c t IH IH2] using two_step_induction;
    intros body' rest rest' Hok Hok' Heq.
  - destruct body' as [| c' t']; cbn in Heq.
    + injection Heq as ->. split; reflexivity.
    + injection Heq as <- _. cbn in Hok'. discriminate.
  - destruct body' as [| c' t']; cbn [app] in Heq.
    + injection Heq as -> _. cbn in Hok. discriminate.
    + injection Heq as <- Heq. cbn [literal_body_ok] in Hok, Hok'.
      destruct (Z.eqb_spec c 92) as [-> | Hne].
      * destruct t as [| e t2]; [discriminate |].
        destruct t' as [| e' t2']; [discriminate |].
        cbn [app] in Heq. injection Heq as <- Heq.
        destruct (IH2 e t2 eq_refl _ _ _ Hok Hok' Heq) as [-> ->].
        split; reflexivity.
      * apply andb_prop in Hok, Hok'. destruct Hok as [_ Hok], Hok' as [_ Hok'].
        destruct (IH _ _ _ Hok Hok' Heq) as [-> ->]. split; reflexivity.
Qed.

Lemma JSON_stringify_prefix (s s' rest rest' : jsstring) :
  JSON_stringify s ++ rest = JSON_stringify s' ++ rest' ->
  JSON_stringify s = JSON_stringify s' /\ rest = rest'.
Proof.
  pose proof (quote_units_ok s) as Hok. pose proof (quote_units_ok s') as Hok'.
  change (JSON_stringify s) with (34 :: quote_units s ++ [34]).
  change (JSON_stringify s') with (34 :: quote_units s' ++ [34]).
  cbn [app]. rewrite <- !app_assoc. cbn [app]. intros H.
  apply (f_equal (@tl Z)) in H. cbn [tl] in H.
  destruct (literal_end_unique _ _ _ _ Hok Hok' H) as [-> ->].
  split; reflexivity.
Qed.

(** X15. Whatever the string, the inside of the literal that
    [JSON.stringify] writes for it holds no bare quote, no control
    character and no backslash without its character, and the literal
    ends with the first quote that no backslash takes: the API base and
    the account identifier cannot end their literal in [worker.js]
    before its end, and what follows the literal is not read into
    it. *)
Theorem JSON_stringify_closed (s : jsstring) :
  (exists body,
     JSON_stringify s = 34 :: body ++ [34] /\ literal_body_ok body = true) /\
  (forall s' rest rest',
     JSON_stringify s ++ rest = JSON_stringify s' ++ rest' ->
     JSON_stringify s = JSON_stringify s' /\ rest = rest').
Proof.
  split.
  - exists (quote_units s). split; [reflexivity | apply quote_units_ok].
  - intros s' rest rest'. apply JSON_stringify_prefix.
Qed.

(** X17. The text of [worker.js] settles the request: two requests of
    the API executor under one API base have the same worker text only
    when their account identifiers have the same literal and their
    codes are the same, so that requests which share a cache key by a
    collision of hashes still differ in their definitions. *)
Theorem worker_text_settles_request (apiBase accountId accountId' code code' : jsstring) :
  code_worker_js apiBase accountId code = code_worker_js apiBase accountId' code' ->
  JSON_stringify accountId = JSON_stringify accountId' /\ code = code'.
Proof.
  unfold code_worker_js. intros H.
  apply app_inv_head, app_inv_head, app_inv_head in H.
  apply JSON_stringify_prefix in H. destruct H as [Hid Hrest].
  split; [exact Hid |].
  apply app_inv_head, app_inv_tail in Hrest. exact Hrest.
Qed.

Lemma worker_text_settles_request_witness :
  JSON_stringify account = JSON_stringify account /\ code_Aa = code_Aa.
Proof.
  apply (worker_text_settles_request api_base account account code_Aa code_Aa).
  reflexivity.
Defined.

(** ** The cleaning of generated code *)

Lemma trimStart_spaces (ws rest : jsstring) :
  all_space ws -> trimStart (ws ++ rest) = trimStart rest.
Proof.
  induction 1 as [| c ws Hc _ IH]; [reflexivity |].
  cbn [app trimStart]. rewrite Hc. exact IH.
Qed.

Lemma trimStart_bare (c : Z) (rest : jsstring) :
  is_space c = false -> trimStart (c :: rest) = c :: rest.
Proof. intros H. cbn [trimStart]. rewrite H. reflexivity. Qed.

Lemma trimStart_head (s : jsstring) :
  match trimStart s with
  | [] => True
  | c :: _ => is_space c = false
  end.
Proof.
  induction s as [| c s IH]; [exact I |].
  cbn [trimStart]. destruct (is_space c) eqn:Hc; [exact IH | exact Hc].
Qed.

Lemma trimStart_idem (s : jsstring) : trimStart (trimStart s) = trimStart s.
Proof.
  pose proof (trimStart_head s) as H.
  destruct (trimStart s) as [| c r]; [reflexivity | apply trimStart_bare, H].
Qed.

Lemma trimStart_suffix (s : jsstring) :
  exists ws, all_space ws /\ s = ws ++ trimStart s.
Proof.
  induction s as [| c s (ws & Hws & IH)].
  - exists []. split; [constructor | reflexivity].
  - cbn [trimStart]. destruct (is_space c) eqn:Hc.
    + exists (c :: ws). split; [constructor; assumption |].
      cbn [app]. f_equal. exact IH.
    + exists []. split; [constructor | reflexivity].
Qed.

Lemma all_space_rev (ws : jsstring) : all_space ws -> all_space (rev ws).
Proof.
  unfold all_space. rewrite !Forall_forall. intros H c Hc.
  apply H, in_rev, Hc.
Qed.

Lemma trimEnd_spaces (rest ws : jsstring) :
  all_space ws -> trimEnd (rest ++ ws) = trimEnd rest.
Proof.
  intros H. unfold trimEnd. rewrite rev_app_distr, trimStart_spaces;
    [reflexivity | apply all_space_rev, H].
Qed.

Lemma trimEnd_bare (rest : jsstring) (c : Z) :
  is_space c = false -> trimEnd (rest ++ [c]) = rest ++ [c].
Proof.
  intros H. unfold trimEnd. rewrite rev_app_distr. cbn [rev app].
  rewrite trimStart_bare by exact H. cbn [rev]. rewrite rev_involutive.
  reflexivity.
Qed.

(** The start of a string is not touched by the trimming of its end,
    unless the string is all space. *)
Lemma trimEnd_keeps_head (c : Z) (rest : jsstring) :
  is_space c = false ->
  exists rest', trimEnd (c :: rest) = c :: rest'.
Proof.
  intros Hc. unfold trimEnd.
  destruct (trimStart_suffix (rev (c :: rest))) as (ws & Hws & Heq).
  apply (f_equal (@rev Z)) in Heq. rewrite rev_involutive, rev_app_distr in Heq.
  destruct (rev (trimStart (rev (c :: rest)))) as [| x r] eqn:Hr.
  - cbn [app] in Heq. apply all_space_rev in Hws. rewrite <- Heq in Hws.
    inversion Hws; subst. congruence.
  - cbn [app] in Heq. injection Heq as <- _. eauto.
Qed.

Lemma trimEnd_last (s : jsstring) :
  match rev (trimEnd s) with
  | [] => True
  | c :: _ => is_space c = false
  end.
Proof.
  unfold trimEnd. rewrite rev_involutive. apply trimStart_head.
Qed.

Lemma trim_bare (ws ws' middle : jsstring) (first last : Z) :
  all_space ws -> all_space ws' ->
  is_space first = false -> is_space last = false ->
  trim (ws ++ (first :: middle ++ [last]) ++ ws') = first :: middle ++ [last].
Proof.
  intros Hws Hws' Hf Hl. unfold trim.
  rewrite trimStart_spaces by exact Hws. cbn [app].
  rewrite trimStart_bare by exact Hf.
  change (first :: (middle ++ [last]) ++ ws')
    with ((first :: middle ++ [last]) ++ ws').
  rewrite trimEnd_spaces by exact Hws'.
  change (first :: middle ++ [last]) with ((first :: middle) ++ [last]).
  apply trimEnd_bare, Hl.
Qed.

Lemma trim_ends (s : jsstring) :
  match trim s with [] => True | c :: _ => is_space c = false end /\
  match rev (trim s) with [] => True | c :: _ => is_space c = false end.
Proof.
  split; [| apply trimEnd_last].
  unfold trim. pose proof (trimStart_head s) as H.
  destruct (trimStart s) as [| c r]; [exact I |].
  destruct (trimEnd_keeps_head c r H) as (r' & ->). exact H.
Qed.

Lemma trim_idem (s : jsstring) : trim (trim s) = trim s.
Proof.
  pose proof (trim_ends s) as [Hhead Hlast].
  destruct (trim s) as [| c r] eqn:Ht; [reflexivity |].
  destruct (rev (c :: r)) as [| l m] eqn:Hrev.
  - apply (f_equal (@rev Z)) in Hrev. rewrite rev_involutive in Hrev.
    discriminate.
  - apply (f_equal (@rev Z)) in Hrev. rewrite rev_involutive in Hrev.
    cbn [rev] in Hrev. unfold trim. rewrite trimStart_bare by exact Hhead.
    rewrite Hrev. apply trimEnd_bare, Hlast.
Qed.

(** X18. What [generateCode] returns has no white space at its start or
    at its end, and trimming it again gives it back as it is. *)
Theorem clean_code_trimmed (text : jsstring) :
  match clean_code text with
  | [] => True
  | c :: _ => is_space c = false
  end /\
  match rev (clean_code text) with
  | [] => True
  | c :: _ => is_space c = false
  end /\
  trim (clean_code text) = clean_code text.
Proof.
  unfold clean_code. cbv zeta.
  split; [apply trim_ends |]. split; [apply trim_ends | apply trim_idem].
Qed.

Lemma strip_closing_fence_fenced (body : jsstring) :
  strip_closing_fence (body ++ [10] ++ lit "```") = body.
Proof.
  unfold strip_closing_fence. rewrite rev_app_distr.
  change (rev ([10] ++ lit "```")) with [96; 96; 96; 10]. cbn [app].
  apply rev_involutive.
Qed.

(** X19. A block of code between fences comes out as its trimmed body:
    with the tag [javascript], the tag [js] or no tag, and with any
    white space around the block, the fences, the tag and the line
    feeds next to them are taken away. *)
Theorem fenced_code_unwrapped (tag body before after : jsstring) :
  tag = [] \/ tag = lit "js" \/ tag = lit "javascript" ->
  all_space before -> all_space after ->
  clean_code (before ++ fenced tag body ++ after) = trim body.
Proof.
  intros Htag Hb Ha. unfold clean_code. cbv zeta.
  assert (Htrim : trim (before ++ fenced tag body ++ after) = fenced tag body).
  { assert (Hshape : fenced tag body
                     = 96 :: ([96; 96] ++ tag ++ [10] ++ body ++ [10; 96; 96]) ++ [96]).
    { unfold fenced. change (lit "```") with [96; 96; 96].
      rewrite <- !app_assoc. reflexivity. }
    rewrite Hshape. apply trim_bare; try assumption; reflexivity. }
  rewrite Htrim.
  assert (Hopen : startsWith (fenced tag body) (lit "```") = true
                  /\ strip_opening_fence (fenced tag body)
                     = body ++ [10] ++ lit "```").
  { destruct Htag as [-> | [-> | ->]]; split; reflexivity. }
  destruct Hopen as [-> ->]. rewrite strip_closing_fence_fenced. reflexivity.
Qed.

Lemma fenced_code_unwrapped_witness :
  clean_code (lit " " ++ fenced (lit "js") (lit "async () => 1") ++ [10])
  = trim (lit "async () => 1").
Proof.
  apply (fenced_code_unwrapped (lit "js") (lit "async () => 1") (lit " ") [10]).
  - right. left. reflexivity.
  - repeat constructor.
  - repeat constructor.
Defined.

Lemma startsWith_nil (s : jsstring) : startsWith s [] = true.
Proof. destruct s; reflexivity. Qed.

Lemma startsWith_app (p rest : jsstring) : startsWith (p ++ rest) p = true.
Proof.
  induction p as [| c p IH]; [apply startsWith_nil |].
  cbn [app startsWith]. rewrite Z.eqb_refl. exact IH.
Qed.

(** X20. Text that does not start with a fence is trimmed and nothing
    else; and after a fence only the tags [javascript] and [js] are
    taken away: any other text after the opening fence, such as another
    tag, stays at the start of the code. *)
Theorem unfenced_and_other_tags (text : jsstring) :
  (startsWith (trim text) (lit "```") = false -> clean_code text = trim text) /\
  (forall rest,
     trim text = lit "```" ++ rest ->
     startsWith rest (lit "javascript") = false ->
     startsWith rest (lit "js") = false ->
     startsWith rest [10] = false ->
     clean_code text = trim (strip_closing_fence rest)).
Proof.
  unfold clean_code. cbv zeta. split.
  - intros ->. apply trim_idem.
  - intros rest -> Hjava Hjs Hnl. rewrite startsWith_app.
    f_equal. f_equal. unfold strip_opening_fence. rewrite startsWith_app.
    cbv zeta. change (slice_from 3 (lit "```" ++ rest)) with rest.
    rewrite Hjava, Hjs.
    destruct rest as [| a r]; [reflexivity |].
    cbn [startsWith] in Hnl. rewrite startsWith_nil, andb_true_r in Hnl.
    destruct (Z.eqb_spec a 10) as [-> | Hne]; [discriminate |].
    destruct a as [| p | p]; try reflexivity.
    repeat (destruct p as [p | p |]; try reflexivity); congruence.
Qed.

Lemma unfenced_and_other_tags_witness :
  clean_code (lit "```ts" ++ [10] ++ lit "let x" ++ [10] ++ lit "```")
  = trim (strip_closing_fence (lit "ts" ++ [10] ++ lit "let x" ++ [10] ++ lit "```")).
Proof.
  apply (proj2 (unfenced_and_other_tags
                  (lit "```ts" ++ [10] ++ lit "let x" ++ [10] ++ lit "```"))
           (lit "ts" ++ [10] ++ lit "let x" ++ [10] ++ lit "```"));
    reflexivity.
Defined.

(** ** The token of a request *)

Lemma startsWith_split (s p : jsstring) :
  startsWith s p = true -> s = p ++ skipn (List.length p) s.
Proof.
  revert s. induction p as [| b p IH]; intros s H; [reflexivity |].
  destruct s as [| a s]; cbn [startsWith] in H; [discriminate |].
  apply andb_prop in H. destruct H as [Hab H]. apply Z.eqb_eq in Hab. subst b.
  cbn [app List.length skipn]. f_equal. apply IH, H.
Qed.

Lemma take_word_split (s : jsstring) :
  exists after,
    s = Index.take_word s ++ after /\
    Forall (fun c => is_space c = false) (Index.take_word s) /\
    (after = [] \/ exists c a, after = c :: a /\ is_space c = true).
Proof.
  induction s as [| c s (after & Heq & Hword & Hafter)].
  - exists []. repeat split; [constructor | now left].
  - cbn [Index.take_word]. destruct (is_space c) eqn:Hc.
    + exists (c :: s). repeat split; [constructor | right; eauto].
    + exists after. cbn [app]. repeat split.
      * f_equal. exact Heq.
      * constructor; assumption.
      * exact Hafter.
Qed.

Lemma take_word_whole (word after : jsstring) :
  Forall (fun c => is_space c = false) word ->
  after = [] \/ (exists c a, after = c :: a /\ is_space c = true) ->
  Index.take_word (word ++ after) = word.
Proof.
  intros Hword Hafter. induction Hword as [| c word Hc _ IH].
  - destruct Hafter as [-> | (c & a & -> & Hc)]; [reflexivity |].
    cbn [app Index.take_word]. rewrite Hc. reflexivity.
  - cbn [app Index.take_word]. rewrite Hc. f_equal. exact IH.
Qed.

(** What a match at the start of the header looks like. *)
Lemma match_bearer_here_Some (s token : jsstring) :
  Index.match_bearer_here s = Some token ->
  token <> [] /\
  Forall (fun c => is_space c = false) token /\
  exists ws after,
    s = lit "Bearer" ++ ws ++ token ++ after /\
    ws <> [] /\ all_space ws /\
    (after = [] \/ exists c a, after = c :: a /\ is_space c = true).
Proof.
  unfold Index.match_bearer_here.
  destruct (startsWith s (lit "Bearer")) eqn:Hstart; [| discriminate].
  apply startsWith_split in Hstart.
  change (List.length (lit "Bearer")) with 6%nat in Hstart.
  destruct (skipn 6 s) as [| c after0]; [discriminate |].
  destruct (is_space c) eqn:Hc; [| discriminate].
  destruct (trimStart_suffix after0) as (ws & Hws & Hafter0).
  destruct (take_word_split (trimStart after0)) as (after & Heq & Hword & Hafter).
  destruct (Index.take_word (trimStart after0)) as [| d word] eqn:Htake;
    [discriminate |].
  intros [= <-]. split; [discriminate |]. split; [exact Hword |].
  exists (c :: ws), after. repeat split.
  - rewrite Hstart at 1. f_equal. cbn [app]. f_equal.
    rewrite Hafter0 at 1. f_equal. exact Heq.
  - discriminate.
  - constructor; assumption.
  - exact Hafter.
Qed.

(** X21. The token that [extractToken] returns is never empty and holds
    no white space, and it stands in the header after the word
    [Bearer] and at least one white space, up to the next white space
    or the end; the word [Bearer] need not be at the start of the
    header. *)
Theorem extractToken_sound (authHeader token : jsstring) :
  Index.extractToken authHeader = Some token ->
  token <> [] /\
  Forall (fun c => is_space c = false) token /\
  exists before ws after,
    authHeader = before ++ lit "Bearer" ++ ws ++ token ++ after /\
    ws <> [] /\ all_space ws /\
    (after = [] \/ exists c a, after = c :: a /\ is_space c = true).
Proof.
  induction authHeader as [| c rest IH].
  - cbn. discriminate.
  - cbn [Index.extractToken].
    destruct (Index.match_bearer_here (c :: rest)) as [t |] eqn:Hhere.
    + intros [= ->].
      destruct (match_bearer_here_Some _ _ Hhere)
        as (Hne & Hword & ws & after & Heq & Hws).
      split; [exact Hne |]. split; [exact Hword |].
      exists [], ws, after. split; [exact Heq | exact Hws].
    + intros H. destruct (IH H) as (Hne & Hword & before & ws & after & Heq & Hws).
      split; [exact Hne |]. split; [exact Hword |].
      exists (c :: before), ws, after. split; [| exact Hws].
      cbn [app]. f_equal. exact Heq.
Qed.

(** X22. A header made of the word [Bearer], white space and a token
    gives the token back: [extractToken] returns the token of a header
    that starts with [Bearer], whatever follows the token after a white
    space. *)
Theorem extractToken_bearer (ws token after : jsstring) :
  ws <> [] -> all_space ws ->
  token <> [] -> Forall (fun c => is_space c = false) token ->
  after = [] \/ (exists c a, after = c :: a /\ is_space c = true) ->
  Index.extractToken (lit "Bearer" ++ ws ++ token ++ after) = Some token.
Proof.
  intros Hne Hws Htok Hword Hafter.
  assert (Hhere : Index.match_bearer_here (lit "Bearer" ++ ws ++ token ++ after)
                  = Some token).
  { unfold Index.match_bearer_here. rewrite startsWith_app.
    change (skipn 6 (lit "Bearer" ++ ws ++ token ++ after))
      with (ws ++ token ++ after).
    destruct ws as [| c ws]; [congruence |].
    inversion Hws as [| ? ? Hc Hws']; subst. cbn [app]. rewrite Hc.
    rewrite trimStart_spaces by exact Hws'.
    destruct token as [| d word]; [congruence |].
    inversion Hword as [| ? ? Hd _]; subst.
    cbn [app]. rewrite trimStart_bare by exact Hd.
    change (d :: word ++ after) with ((d :: word) ++ after).
    rewrite take_word_whole by assumption. reflexivity. }
  change (lit "Bearer" ++ ws ++ token ++ after)
    with (66 :: (lit "earer" ++ ws ++ token ++ after)) in *.
  cbn [Index.extractToken]. rewrite Hhere. reflexivity.
Qed.

Lemma extractToken_sound_witness :
  token_1 <> [] /\
  Forall (fun c => is_space c = false) token_1 /\
  exists before ws after,
    lit "Bearer " ++ token_1 = before ++ lit "Bearer" ++ ws ++ token_1 ++ after /\
    ws <> [] /\ all_space ws /\
    (after = [] \/ exists c a, after = c :: a /\ is_space c = true).
Proof.
  apply (extractToken_sound (lit "Bearer " ++ token_1) token_1).
  vm_compute. reflexivity.
Defined.

Lemma extractToken_bearer_witness :
  Index.extractToken (lit "Bearer" ++ lit " " ++ token_1 ++ []) = Some token_1.
Proof.
  apply (extractToken_bearer (lit " ") token_1 []).
  - discriminate.
  - repeat constructor.
  - discriminate.
  - vm_compute. repeat constructor.
  - left. reflexivity.
Defined.

Lemma extractToken_nonempty (authHeader token : jsstring) :
  Index.extractToken authHeader = Some token -> token <> [].
Proof.
  induction authHeader as [| c rest IH]; [discriminate |].
  cbn [Index.extractToken].
  destruct (Index.match_bearer_here (c :: rest)) as [t |] eqn:Hhere.
  - intros [= ->]. apply (match_bearer_here_Some _ _ Hhere).
  - exact IH.
Qed.

(** X23. Where the token of a request comes from: from the first match
    in a header that is not empty, and from nowhere else when there is
    such a header; or, only when the header is missing or empty and the
    host name is [localhost], [127.0.0.1] or [0.0.0.0], from a
    non-empty string in the environment. *)
Theorem request_token_sources (authHeader : option jsstring)
    (hostname : jsstring) (envToken : jsval) (token : jsstring) :
  Index.request_token authHeader hostname envToken = inr token <->
  (exists c h,
     authHeader = Some (c :: h) /\ Index.extractToken (c :: h) = Some token) \/
  ((authHeader = None \/ authHeader = Some []) /\
   Index.isLocalhostHostname hostname = true /\
   envToken = JStr token /\ token <> []).
Proof.
  unfold Index.request_token, Index.require_token. split.
  - destruct authHeader as [[| c h] |].
    + destruct (Index.isLocalhostHostname hostname); cbn; [| discriminate].
      destruct envToken as [| | | | [| d s] | |]; cbn; try discriminate.
      intros [= <-]. right. repeat split; [now right | discriminate].
    + cbv zeta.
      destruct (Index.extractToken (c :: h)) as [[| d t] |] eqn:Hx; cbn;
        try discriminate.
      intros [= <-]. left. eauto.
    + destruct (Index.isLocalhostHostname hostname); cbn; [| discriminate].
      destruct envToken as [| | | | [| d s] | |]; cbn; try discriminate.
      intros [= <-]. right. repeat split; [now left | discriminate].
  - intros [(c & h & -> & Hx) | (Hhead & -> & -> & Hne)].
    + cbv zeta. rewrite Hx. pose proof (extractToken_nonempty _ _ Hx) as Hne.
      destruct token as [| d t]; [congruence | reflexivity].
    + destruct token as [| d t]; [congruence |].
      destruct Hhead as [-> | ->]; reflexivity.
Qed.

Lemma request_token_sources_witness :
  Index.request_token (Some (lit "Bearer " ++ token_1)) (lit "example.com")
    (JStr token_2) = inr token_1.
Proof.
  apply (proj2 (request_token_sources (Some (lit "Bearer " ++ token_1))
                  (lit "example.com") (JStr token_2) token_1)).
  left. exists 66, (lit "earer " ++ token_1). split; [reflexivity |].
  vm_compute. reflexivity.
Defined.

Section VerifyTheorems.
Variable is_Error : jsval -> bool.

(** X24. [verifyToken] accepts a token in two ways only: without an
    account when the check of the user token has succeeded, and with an
    account when that check has failed while the list of accounts has
    succeeded with exactly one account, whose identifier it then
    returns. *)
Theorem verifyToken_accepts answers :
  (Index.valid (Index.verifyToken is_Error answers) = true /\
   Index.accountId (Index.verifyToken is_Error answers) = None <->
   exists userData accountsData,
     answers = Return (userData, accountsData) /\
     Index.success userData = true) /\
  (forall account_id,
     Index.valid (Index.verifyToken is_Error answers) = true /\
     Index.accountId (Index.verifyToken is_Error answers) = Some account_id <->
     exists userData accountsData account,
       answers = Return (userData, accountsData) /\
       Index.success userData = false /\
       Index.success accountsData = true /\
       Index.result accountsData = Some [account] /\
       Index.id account = account_id).
Proof.
  split; [| intros account_id]; split.
  - destruct answers as [[userData accountsData] | e]; cbn;
      [| intros [H _]; discriminate].
    destruct (Index.success userData) eqn:Hu; [eauto |].
    destruct (Index.success accountsData), (Index.result accountsData) as [[| a [| b l]] |];
      cbn; intros [H1 H2]; discriminate.
  - intros (userData & accountsData & -> & Hu). cbn. rewrite Hu. split; reflexivity.
  - destruct answers as [[userData accountsData] | e]; cbn;
      [| intros [H _]; discriminate].
    destruct (Index.success userData) eqn:Hu; [intros [_ H]; discriminate |].
    destruct (Index.success accountsData) eqn:Ha,
             (Index.result accountsData) as [[| a [| b l]] |] eqn:Hr;
      cbn; intros [H1 H2]; try discriminate.
    injection H2 as <-. exists userData, accountsData, a. repeat split; assumption.
  - intros (userData & accountsData & account & -> & Hu & Ha & Hr & <-).
    cbn. rewrite Hu, Ha, Hr. split; reflexivity.
Qed.

(** X25. Every refusal of [fetch] after the verification carries the
    message that [verifyToken] has given, which is never empty, so the
    fallback message is never sent; and a request that is let through
    carries its token unchanged. *)
Theorem authorize_or_refuse token answers :
  (forall refusal,
     Index.authorize is_Error token answers = inl refusal ->
     Index.valid (Index.verifyToken is_Error answers) = false /\
     Index.error (Index.verifyToken is_Error answers) = Some refusal /\
     refusal <> []) /\
  (forall token' account,
     Index.authorize is_Error token answers = inr (token', account) ->
     token' = token /\
     Index.valid (Index.verifyToken is_Error answers) = true /\
     Index.error (Index.verifyToken is_Error answers) = None /\
     account = Index.accountId (Index.verifyToken is_Error answers)).
Proof.
  assert (Hmsg : Index.valid (Index.verifyToken is_Error answers) = false ->
                 exists c m,
                   Index.error (Index.verifyToken is_Error answers) = Some (c :: m)).
  { destruct answers as [[userData accountsData] | e]; cbn.
    - destruct (Index.success userData); [discriminate |].
      assert (Helse : forall a b, b <> [] -> exists c m,
                        Some (Index.or_else a b) = Some (c :: m)).
      { intros [[| c s] |] [| d b] Hb; try congruence; cbn; eauto. }
      destruct (Index.success accountsData),
               (Index.result accountsData) as [[| a [| b l]] |];
        cbn; intros H; try discriminate H;
        try (apply Helse; discriminate);
        (do 2 eexists; reflexivity).
    - intros _. do 2 eexists. reflexivity. }
  assert (Hok : Index.valid (Index.verifyToken is_Error answers) = true ->
                Index.error (Index.verifyToken is_Error answers) = None).
  { destruct answers as [[userData accountsData] | e]; cbn; [| discriminate].
    destruct (Index.success userData); [reflexivity |].
    destruct (Index.success accountsData),
             (Index.result accountsData) as [[| a [| b l]] |];
      cbn; intros H; try discriminate; reflexivity. }
  unfold Index.authorize. cbv zeta.
  destruct (Index.valid (Index.verifyToken is_Error answers)) eqn:Hv; cbn [negb].
  - split; [discriminate |].
    intros token' account [= <- <-]. repeat split. apply Hok. reflexivity.
  - split; [| discriminate].
    intros refusal [= <-]. destruct (Hmsg eq_refl) as (c & m & ->).
    cbn. repeat split. discriminate.
Qed.

End VerifyTheorems.

Lemma verifyToken_accepts_witness :
  Index.valid
    (Index.verifyToken (fun _ => true)
       (Return
          ({| Index.success := false; Index.result := None;
              Index.errors := None |},
           {| Index.success := true;
              Index.result :=
                Some [{| Index.id := account; Index.name := lit "main" |}];
              Index.errors := None |}))) = true /\
  Index.accountId
    (Index.verifyToken (fun _ => true)
       (Return
          ({| Index.success := false; Index.result := None;
              Index.errors := None |},
           {| Index.success := true;
              Index.result :=
                Some [{| Index.id := account; Index.name := lit "main" |}];
              Index.errors := None |}))) = Some account.
Proof.
  apply (proj2 (proj2 (verifyToken_accepts (fun _ => true) _) account)).
  do 3 eexists. repeat split.
Defined.

Lemma authorize_or_refuse_witness :
  Index.error (Index.verifyToken (fun _ => true) (Throw JNull))
  = Some (lit "Failed to verify token: Unknown error").
Proof.
  apply (proj1 (authorize_or_refuse (fun _ => true) token_1 (Throw JNull))
           (lit "Failed to verify token: Unknown error") eq_refl).
Defined.

(** ** The tools and the request *)

Section ToolTheorems.
Variable env : Executor.Env.
Variable engine : Engine.
Variable is_Error : jsval -> bool.
Variable truncateResponse : jsval -> completion jsstring.

Local Abbreviation W := (Executor.Worker (Executor.LOADER env)).

(** X26. From the embedded code to the text of the tool: when the
    worker runs [evaluate] around the code, an error that the code
    throws with a non-empty message comes out of the tool as the text
    [Error: ] and that message, flagged as an error; a value that the
    code returns comes out as what [truncateResponse] makes of it; and
    a failure of [truncateResponse] is flagged as an error too. *)
Theorem tool_shows_outcome (worker : W) args user :
  Executor.entrypoint_evaluate (Executor.LOADER env) worker args
  = evaluate engine user ->
  (forall fields c message,
     user = Throw (JObj fields) ->
     field (lit "message") fields = JStr (c :: message) ->
     is_Error (new_Error engine (c :: message)) = true ->
     Tool.tool is_Error truncateResponse (Executor.invoke env engine worker args)
     = {| Tool.text := lit "Error: " ++ c :: message; Tool.isError := true |}) /\
  (forall value,
     user = Return value ->
     (forall text,
        truncateResponse value = Return text ->
        Tool.tool is_Error truncateResponse (Executor.invoke env engine worker args)
        = {| Tool.text := text; Tool.isError := false |}) /\
     (forall e,
        truncateResponse value = Throw e ->
        Tool.isError
          (Tool.tool is_Error truncateResponse
             (Executor.invoke env engine worker args)) = true)).
Proof.
  intros Hsandbox. unfold Executor.invoke. rewrite Hsandbox. split.
  - intros fields c message -> Hmsg Hinst.
    cbn [evaluate get_prop bind]. rewrite Hmsg. cbn [bind err truthy to_str].
    unfold Tool.tool. cbn [bind]. unfold Tool.errorMessage.
    unfold new_Error in *. rewrite Hinst. reflexivity.
  - intros value ->. cbn [evaluate bind err truthy result]. unfold Tool.tool.
    cbn [bind]. split.
    + intros text ->. reflexivity.
    + intros e ->. reflexivity.
Qed.

End ToolTheorems.

Lemma tool_shows_outcome_witness :
  Tool.tool (fun _ => true) (fun _ => Return (lit "ok"))
    (Executor.invoke
       (bridged_env example_engine
          (fun _ _ => Throw (new_Error example_engine (lit "bad"))))
       example_engine worker_Aa [])
  = {| Tool.text := lit "Error: " ++ lit "bad"; Tool.isError := true |}.
Proof.
  apply (proj1 (tool_shows_outcome
                  (bridged_env example_engine
                     (fun _ _ => Throw (new_Error example_engine (lit "bad"))))
                  example_engine (fun _ => true) (fun _ => Return (lit "ok"))
                  worker_Aa [] (Throw (new_Error example_engine (lit "bad")))
                  eq_refl)
           _ 98 (lit "ad") eq_refl eq_refl eq_refl).
Defined.

Section RequestTheorems.
Variable JSON_stringify_value : jsval -> jsval.

(** X27. The headers and the body of [cloudflare.request] agree: the
    credential is always sent as a bearer token; when the caller names
    no content type, the content type is JSON exactly when a body is
    sent as its JSON text; and a body that is falsy, such as [0],
    [false], [null] or the empty string, is not sent unless it is
    raw. *)
Theorem request_headers_match_body (apiToken : jsstring) (options : Request.Options) :
  In (lit "Authorization", JStr (lit "Bearer " ++ apiToken))
     (Request.headers apiToken options) /\
  (truthy (Request.contentType options) = false ->
   (In (lit "Content-Type", JStr (lit "application/json"))
       (Request.headers apiToken options) <->
    truthy (Request.body options) = true /\
    truthy (Request.rawBody options) = false) /\
   (In (lit "Content-Type", JStr (lit "application/json"))
       (Request.headers apiToken options) ->
    Request.requestBody JSON_stringify_value options
    = JSON_stringify_value (Request.body options))) /\
  (truthy (Request.body options) = false ->
   truthy (Request.rawBody options) = false ->
   Request.requestBody JSON_stringify_value options = JUndefined).
Proof.
  unfold Request.headers, Request.requestBody. cbv zeta.
  split; [| split].
  - destruct (truthy (Request.contentType options));
      [| destruct (truthy (Request.body options) && negb (truthy (Request.rawBody options)))];
      now left.
  - intros ->.
    destruct (truthy (Request.body options)), (truthy (Request.rawBody options));
      cbn [andb negb]; (split; [split |]).
    all: try (intros [H | [H | []]]; discriminate H).
    all: try (intros [H | []]; discriminate H).
    all: try (intros [H1 H2]; discriminate).
    all: try reflexivity.
    + intros _. split; reflexivity.
    + intros _. right. now left.
  - intros -> ->. reflexivity.
Qed.

End RequestTheorems.

Lemma request_headers_match_body_witness :
  Request.requestBody (fun v => JStr (to_str v))
    {| Request.body := JNum 0; Request.contentType := JUndefined;
       Request.rawBody := JUndefined |}
  = JUndefined.
Proof.
  apply (proj2 (proj2 (request_headers_match_body (fun v => JStr (to_str v)) token_1
                         {| Request.body := JNum 0;
                            Request.contentType := JUndefined;
                            Request.rawBody := JUndefined |}))); reflexivity.
Defined.
